(** * The i18n-manager workspace scanner

    A shallow embedding of [src/workspace-scanner.ts]: the normalisation of
    translation values ([strippedString]), the validated view
    ([validatedResultsById$]), the delta update ([onDocumentSave]), the initial
    scan ([initialize]) and the buffering of early saves ([registerEvents]). *)

From Stdlib Require Import Ascii String.
From stdpp Require Import gmap strings list fin_maps.

Local Open Scope string_scope.
Local Open Scope list_scope.
Local Open Scope nat_scope.

(** ** Regular expressions of the scanner

    The three expressions of [strippedString] are sequences of character
    classes, some of them under a greedy [+].  JavaScript strings are read as
    sequences of characters; the classes below only test single characters. *)

Module Regex.

Inductive atom :=
  | One (p : ascii → bool)     (* a class, once *)
  | Many (p : ascii → bool).   (* a class under a greedy [+] *)

Definition regex := list atom.

(** The match of [r] at the head of [s], found the way a backtracking engine
    does: [+] takes the longest run first and gives characters back when the
    rest of the expression fails.  The result is what is left of the input. *)
Fixpoint match_here (r : regex) (s : list ascii) {struct r} : option (list ascii) :=
  match r with
  | [] => Some s
  | One p :: r' =>
      match s with
      | c :: s' => if p c then match_here r' s' else None
      | [] => None
      end
  | Many p :: r' =>
      (fix many (s : list ascii) : option (list ascii) :=
         match s with
         | c :: s' =>
             if p c then
               match many s' with
               | Some rest => Some rest
               | None => match_here r' s'
               end
             else None
         | [] => None
         end) s
  end.

(** [str.replace(/r/g, by)]: scan from the left, replace every match and go
    on after it.  [skip] counts the characters of the last match that are
    still to be passed over.  (A match of one of the scanner's expressions is
    never empty; an empty match keeps the character it stands before.) *)
Fixpoint replace_from (r : regex) (by_ : list ascii) (skip : nat) (s : list ascii)
  : list ascii :=
  match s with
  | [] => []
  | c :: s' =>
      match skip with
      | S k => replace_from r by_ k s'
      | O =>
          match match_here r s with
          | Some rest =>
              match length s - length rest with
              | O => by_ ++ c :: replace_from r by_ 0 s'
              | S k => by_ ++ replace_from r by_ k s'
              end
          | None => c :: replace_from r by_ 0 s'
          end
      end
  end.

Definition replace (r : regex) (by_ : list ascii) (s : list ascii) : list ascii :=
  replace_from r by_ 0 s.

End Regex.

Import Regex.

Definition LF : ascii := "010"%char.
Definition CR : ascii := "013"%char.

Definition is_char (a c : ascii) : bool := bool_decide (c = a).

(** [/[\n\r]/gi] *)
Definition re_newline : regex :=
  [One (λ c, is_char LF c || is_char CR c)].

(** [/{{[^}]+}}/gi] *)
Definition re_placeholder : regex :=
  [One (is_char "{"); One (is_char "{");
   Many (λ c, negb (is_char "}" c));
   One (is_char "}"); One (is_char "}")].

(** [/ +/g] *)
Definition re_spaces : regex := [Many (is_char " ")].

Definition chars (s : string) : list ascii := list_ascii_of_string s.

(** [strippedString]: the argument is a [string] by its type, but the caller
    passes [values[0]], which is [undefined] on an empty array; [!str] holds
    for [undefined] and for the empty string. *)
Definition strippedString (str : option string) : option string :=
  match str with
  | None => None
  | Some "" => Some ""
  | Some s =>
      Some (string_of_list_ascii
              (replace re_spaces (chars " ")
                 (replace re_placeholder (chars "{}")
                    (replace re_newline [] (chars s)))))
  end.

Example strippedString_name :
  strippedString (Some "Hi {{name}}") = Some "Hi {}".
Proof. reflexivity. Qed.

Example strippedString_lines :
  strippedString (Some ("a  b" +:+ String LF ("   {{ x | y }}{{}}" +:+ String CR "{{a}b}} c")))
  = Some "a b {}{{}}{{a}b}} c".
Proof. vm_compute. reflexivity. Qed.

(** ** What the normalisation is said to do

    The three steps in the words of the specification, as relations between
    the input and the output of each step. *)

(** (a) all newline characters are deleted. *)
Definition is_newline (c : ascii) : Prop := c = LF ∨ c = CR.

Definition newlines_deleted (s out : list ascii) : Prop :=
  out = filter (λ c, ¬ is_newline c) s.

(** (b) every placeholder, a non-empty text without a closing brace between
    double braces, is collapsed to the empty placeholder token. *)
Definition is_body (body : list ascii) : Prop :=
  body ≠ [] ∧ "}"%char ∉ body.

Definition placeholder_at (s : list ascii) : Prop :=
  ∃ body rest, is_body body ∧ s = chars "{{" ++ body ++ chars "}}" ++ rest.

Inductive placeholders_collapsed : list ascii → list ascii → Prop :=
  | pc_nil : placeholders_collapsed [] []
  | pc_placeholder body rest out :
      is_body body →
      placeholders_collapsed rest out →
      placeholders_collapsed (chars "{{" ++ body ++ chars "}}" ++ rest) (chars "{}" ++ out)
  | pc_char c s out :
      ¬ placeholder_at (c :: s) →
      placeholders_collapsed s out →
      placeholders_collapsed (c :: s) (c :: out).

(** (c) every run of spaces is collapsed to one space. *)
Definition SP : ascii := " "%char.

Inductive spaces_collapsed : list ascii → list ascii → Prop :=
  | sc_nil : spaces_collapsed [] []
  | sc_run n rest out :
      head rest ≠ Some SP →
      spaces_collapsed rest out →
      spaces_collapsed (replicate (S n) SP ++ rest) (SP :: out)
  | sc_char c s out :
      c ≠ SP →
      spaces_collapsed s out →
      spaces_collapsed (c :: s) (c :: out).

(** ** The replacement engine *)

Lemma match_here_many p r c s :
  match_here (Many p :: r) (c :: s) =
  if p c then
    match match_here (Many p :: r) s with
    | Some rest => Some rest
    | None => match_here r s
    end
  else None.
Proof. reflexivity. Qed.

Lemma match_here_many_nil p r : match_here (Many p :: r) [] = None.
Proof. reflexivity. Qed.

Lemma replace_from_skip r by_ pre rest :
  replace_from r by_ (length pre) (pre ++ rest) = replace_from r by_ 0 rest.
Proof.
  induction pre as [|c pre IH]; simpl.
  - destruct rest; reflexivity.
  - exact IH.
Qed.

Lemma replace_match r by_ c pre rest :
  match_here r (c :: pre ++ rest) = Some rest →
  replace r by_ (c :: pre ++ rest) = by_ ++ replace r by_ rest.
Proof.
  intros Hm. unfold replace.
  change (replace_from r by_ 0 (c :: pre ++ rest)) with
    (match match_here r (c :: pre ++ rest) with
     | Some rest0 =>
         match length (c :: pre ++ rest) - length rest0 with
         | O => by_ ++ c :: replace_from r by_ 0 (pre ++ rest)
         | S k => by_ ++ replace_from r by_ k (pre ++ rest)
         end
     | None => c :: replace_from r by_ 0 (pre ++ rest)
     end).
  rewrite Hm.
  replace (length (c :: pre ++ rest) - length rest) with (S (length pre))
    by (simpl; rewrite length_app; lia).
  by rewrite replace_from_skip.
Qed.

Lemma replace_no_match r by_ c s :
  match_here r (c :: s) = None →
  replace r by_ (c :: s) = c :: replace r by_ s.
Proof. intros Hm. unfold replace. simpl replace_from. by rewrite Hm. Qed.

Lemma is_char_true a c : is_char a c = true ↔ c = a.
Proof. unfold is_char. apply bool_decide_eq_true. Qed.

Lemma is_char_false a c : is_char a c = false ↔ c ≠ a.
Proof. unfold is_char. apply bool_decide_eq_false. Qed.

Lemma is_char_refl a : is_char a a = true.
Proof. by apply is_char_true. Qed.

(** *** Newlines *)

Lemma replace_newline s :
  replace re_newline [] s = filter (λ c, ¬ is_newline c) s.
Proof.
  induction s as [|c s IH]; [reflexivity|].
  destruct (is_char LF c || is_char CR c) eqn:Hc.
  - pose proof (replace_match re_newline [] c [] s) as Hr. simpl app in Hr.
    rewrite Hr, IH by (simpl; by rewrite Hc).
    rewrite filter_cons_False; [done|].
    intros Hn. apply Hn. unfold is_newline.
    apply orb_true_iff in Hc as [?%is_char_true | ?%is_char_true]; auto.
  - rewrite replace_no_match, IH by (simpl; by rewrite Hc).
    rewrite filter_cons_True; [done|].
    apply orb_false_iff in Hc as [?%is_char_false ?%is_char_false].
    unfold is_newline. tauto.
Qed.

(** *** Placeholders *)

Definition re_body_close : regex :=
  [Many (λ c, negb (is_char "}" c)); One (is_char "}"); One (is_char "}")].

Lemma close_match rest :
  match_here [One (is_char "}"); One (is_char "}")] (chars "}}" ++ rest) = Some rest.
Proof. reflexivity. Qed.

Lemma close_match_inv s rest :
  match_here [One (is_char "}"); One (is_char "}")] s = Some rest →
  s = chars "}}" ++ rest.
Proof.
  destruct s as [|a [|b s]]; simpl; try discriminate.
  - destruct (is_char "}" a); discriminate.
  - destruct (is_char "}" a) eqn:Ha; [|discriminate].
    destruct (is_char "}" b) eqn:Hb; [|discriminate].
    apply is_char_true in Ha, Hb. by intros [= ->]; subst.
Qed.

Lemma body_close_match body rest :
  is_body body →
  match_here re_body_close (body ++ chars "}}" ++ rest) = Some rest.
Proof.
  intros [Hne Hnot]. unfold re_body_close.
  induction body as [|c body IH]; [done|].
  assert (Hc : is_char "}" c = false).
  { apply is_char_false. intros ->. apply Hnot. left. }
  rewrite <- app_comm_cons, match_here_many. simpl negb at 1. rewrite Hc. simpl negb.
  destruct body as [|c' body].
  - reflexivity.
  - rewrite IH; [done..|]. intros Hin. apply Hnot. by right.
Qed.

Lemma body_close_match_inv s rest :
  match_here re_body_close s = Some rest →
  ∃ body, is_body body ∧ s = body ++ chars "}}" ++ rest.
Proof.
  unfold re_body_close. induction s as [|c s IH]; [discriminate|].
  rewrite match_here_many.
  destruct (is_char "}" c) eqn:Hc; simpl negb; cbv iota; [discriminate|].
  apply is_char_false in Hc.
  destruct (match_here _ s) as [rest'|] eqn:Hm.
  - intros [= ->]. destruct IH as (body & [Hne Hnot] & ->); [done|].
    exists (c :: body). split; [|done]. split; [done|].
    intros [?|?]%elem_of_cons; congruence.
  - intros ->%close_match_inv. exists [c]. split; [|done]. split; [done|].
    intros [?|?%elem_of_nil]%elem_of_cons; congruence.
Qed.

Lemma placeholder_match body rest :
  is_body body →
  match_here re_placeholder (chars "{{" ++ body ++ chars "}}" ++ rest) = Some rest.
Proof. intros Hb. apply (body_close_match body rest Hb). Qed.

Lemma placeholder_match_inv s rest :
  match_here re_placeholder s = Some rest →
  ∃ body, is_body body ∧ s = chars "{{" ++ body ++ chars "}}" ++ rest.
Proof.
  destruct s as [|a [|b s]]; try discriminate.
  - simpl. destruct (is_char "{" a); discriminate.
  - change (match_here re_placeholder (a :: b :: s)) with
      (if is_char "{" a then if is_char "{" b then match_here re_body_close s else None
       else None).
    destruct (is_char "{" a) eqn:Ha; [|discriminate].
    destruct (is_char "{" b) eqn:Hb; [|discriminate].
    apply is_char_true in Ha, Hb. subst.
    intros (body & ? & ->)%body_close_match_inv. by exists body.
Qed.

Lemma replace_placeholders s :
  placeholders_collapsed s (replace re_placeholder (chars "{}") s).
Proof.
  remember (length s) as n eqn:Hn. revert s Hn.
  induction n as [n IH] using lt_wf_ind. intros [|c s] Hn; [constructor|].
  destruct (match_here re_placeholder (c :: s)) as [rest|] eqn:Hm.
  - destruct (placeholder_match_inv _ _ Hm) as (body & Hbody & Heq).
    assert (Hpre : c :: s = "{"%char :: ("{"%char :: body ++ chars "}}") ++ rest).
    { rewrite Heq. simpl. by rewrite <- app_assoc. }
    rewrite Hpre in Hm. rewrite Hpre, (replace_match _ _ _ _ _ Hm).
    rewrite <- Hpre, Heq.
    apply (pc_placeholder body rest); [done|].
    apply (IH (length rest)); [|done].
    subst n. rewrite Heq. simpl. rewrite !length_app. simpl. lia.
  - rewrite replace_no_match by done. constructor.
    + intros (body & rest & Hbody & Heq).
      rewrite Heq, placeholder_match in Hm; done.
    + apply (IH (length s)); [subst n; simpl; lia | done].
Qed.

(** *** Spaces *)

Lemma spaces_match_cons s : is_Some (match_here re_spaces (SP :: s)).
Proof.
  unfold re_spaces. rewrite match_here_many. change (is_char " " SP) with true.
  cbv iota. destruct (match_here _ s); eauto.
Qed.

Lemma spaces_match_inv s rest :
  match_here re_spaces s = Some rest →
  ∃ n, s = replicate (S n) SP ++ rest ∧ head rest ≠ Some SP.
Proof.
  induction s as [|c s IH]; [discriminate|].
  unfold re_spaces in *. rewrite match_here_many.
  destruct (is_char " " c) eqn:Hc; [|discriminate].
  apply is_char_true in Hc. subst c.
  destruct (match_here _ s) as [rest'|] eqn:Hm.
  - intros [= ->]. destruct IH as (n & -> & Hhd); [done|].
    by exists (S n).
  - simpl. intros [= ->]. exists 0. split; [done|].
    destruct rest as [|c rest]; [done|]. intros [= ->].
    destruct (spaces_match_cons rest) as [? Hs]. unfold re_spaces in Hs. congruence.
Qed.

Lemma replace_spaces s :
  spaces_collapsed s (replace re_spaces (chars " ") s).
Proof.
  remember (length s) as n eqn:Hn. revert s Hn.
  induction n as [n IH] using lt_wf_ind. intros [|c s] Hn; [constructor|].
  destruct (match_here re_spaces (c :: s)) as [rest|] eqn:Hm.
  - destruct (spaces_match_inv _ _ Hm) as (k & Heq & Hhd).
    rewrite Heq in Hm |- *. simpl replicate in Hm |- *.
    rewrite <- app_comm_cons in Hm |- *.
    rewrite (replace_match _ _ _ _ _ Hm). rewrite app_comm_cons.
    apply (sc_run k rest); [done|].
    apply (IH (length rest)); [|done].
    subst n. rewrite Heq. simpl. rewrite length_app. lia.
  - rewrite replace_no_match by done. constructor.
    + intros ->. destruct (spaces_match_cons s). congruence.
    + apply (IH (length s)); [subst n; simpl; lia | done].
Qed.

(** Each step fixes its output: the relations are functional. *)
Lemma placeholder_at_unique body1 rest1 body2 rest2 :
  is_body body1 → is_body body2 →
  body1 ++ chars "}}" ++ rest1 = body2 ++ chars "}}" ++ rest2 →
  body1 = body2 ∧ rest1 = rest2.
Proof.
  intros [_ H1] [_ H2]. revert body2 H2.
  induction body1 as [|c body1 IH]; intros [|d body2] H2 Heq; simpl in *.
  - by injection Heq.
  - injection Heq as <- _. exfalso. apply H2. left.
  - injection Heq as -> _. exfalso. apply H1. left.
  - injection Heq as -> Heq.
    destruct (IH (λ Hin, H1 (list_elem_of_further _ _ _ Hin)) body2
                (λ Hin, H2 (list_elem_of_further _ _ _ Hin)) Heq) as [-> ->].
    done.
Qed.

Lemma placeholders_collapsed_fun s out1 out2 :
  placeholders_collapsed s out1 → placeholders_collapsed s out2 → out1 = out2.
Proof.
  intros H1. revert out2.
  induction H1 as [|body rest out Hb _ IH|c s out Hno _ IH]; intros out2 H2.
  - by inversion H2.
  - remember (chars "{{" ++ body ++ chars "}}" ++ rest) as s eqn:Hs.
    destruct H2 as [|body2 rest2 out2 Hb2 H2|c s out2 Hno H2].
    + discriminate.
    + simpl in Hs. injection Hs as Hs.
      destruct (placeholder_at_unique _ _ _ _ Hb2 Hb Hs) as [-> ->].
      f_equal. by apply IH.
    + exfalso. apply Hno. by exists body, rest.
  - remember (c :: s) as s0 eqn:Hs.
    destruct H2 as [|body2 rest2 out2 Hb2 H2|c2 s2 out2 _ H2].
    + discriminate.
    + exfalso. apply Hno. rewrite Hs. by exists body2, rest2.
    + injection Hs as -> ->. f_equal. by apply IH.
Qed.

Lemma replicate_SP_split n m rest1 rest2 :
  head rest1 ≠ Some SP → head rest2 ≠ Some SP →
  replicate n SP ++ rest1 = replicate m SP ++ rest2 →
  rest1 = rest2.
Proof.
  revert m. induction n as [|n IH]; intros [|m] H1 H2 Heq; simpl in *.
  - done.
  - subst rest1. done.
  - subst rest2. done.
  - injection Heq as Heq. by apply (IH m).
Qed.

Lemma spaces_collapsed_fun s out1 out2 :
  spaces_collapsed s out1 → spaces_collapsed s out2 → out1 = out2.
Proof.
  intros H1. revert out2.
  induction H1 as [|n rest out Hhd _ IH|c s out Hc _ IH]; intros out2 H2.
  - by inversion H2.
  - remember (replicate (S n) SP ++ rest) as s eqn:Hs.
    destruct H2 as [|m rest2 out2 Hhd2 H2|c s out2 Hc H2].
    + discriminate.
    + rewrite (replicate_SP_split _ _ _ _ Hhd2 Hhd Hs) in H2.
      f_equal. by apply IH.
    + simpl in Hs. injection Hs as -> _. done.
  - remember (c :: s) as s0 eqn:Hs.
    destruct H2 as [|m rest2 out2 Hhd2 H2|c2 s2 out2 _ H2].
    + discriminate.
    + simpl in Hs. injection Hs as <- _. done.
    + injection Hs as -> ->. f_equal. by apply IH.
Qed.

(** C5, amended. The normalisation deletes the newline characters, then
    collapses, from the left, every placeholder that is made of double braces
    around a non-empty text without a closing brace to the token [{}], then
    collapses every run of spaces to one space (the empty and the absent
    value are returned as they are); "Hi {{name}}" and "Hi {{other}}" both
    normalise to "Hi {}". *)
Theorem strippedString_normalises :
  (∀ s : string,
     ∃ s1 s2 s3,
       newlines_deleted (chars s) s1 ∧
       placeholders_collapsed s1 s2 ∧
       spaces_collapsed s2 s3 ∧
       strippedString (Some s) = Some (string_of_list_ascii s3)) ∧
  (∀ (s : string) s1 s2 s3,
     newlines_deleted (chars s) s1 →
     placeholders_collapsed s1 s2 →
     spaces_collapsed s2 s3 →
     strippedString (Some s) = Some (string_of_list_ascii s3)) ∧
  strippedString None = None ∧
  strippedString (Some "Hi {{name}}") = Some "Hi {}" ∧
  strippedString (Some "Hi {{other}}") = Some "Hi {}".
Proof.
  assert (Hex : ∀ s : string,
            ∃ s1 s2 s3,
              newlines_deleted (chars s) s1 ∧
              placeholders_collapsed s1 s2 ∧
              spaces_collapsed s2 s3 ∧
              strippedString (Some s) = Some (string_of_list_ascii s3)).
  { intros s.
    exists (replace re_newline [] (chars s)).
    exists (replace re_placeholder (chars "{}") (replace re_newline [] (chars s))).
    eexists. split; [apply replace_newline|].
    split; [apply replace_placeholders|].
    split; [apply replace_spaces|].
    destruct s; reflexivity. }
  split; [exact Hex|]. split; [|by repeat split].
  intros s s1 s2 s3 H1 H2 H3.
  destruct (Hex s) as (t1 & t2 & t3 & G1 & G2 & G3 & ->).
  unfold newlines_deleted in *. subst t1 s1.
  rewrite (placeholders_collapsed_fun _ _ _ H2 G2) in H3.
  by rewrite (spaces_collapsed_fun _ _ _ H3 G3).
Qed.

Lemma strippedString_normalises_witness :
  newlines_deleted (chars "Hi  {{name}}") (chars "Hi  {{name}}") ∧
  placeholders_collapsed (chars "Hi  {{name}}") (chars "Hi  {}") ∧
  spaces_collapsed (chars "Hi  {}") (chars "Hi {}") ∧
  strippedString (Some "Hi  {{name}}") = Some "Hi {}".
Proof.
  assert (H1 : newlines_deleted (chars "Hi  {{name}}") (chars "Hi  {{name}}"))
    by reflexivity.
  assert (H2 : placeholders_collapsed (chars "Hi  {{name}}") (chars "Hi  {}"))
    by exact (replace_placeholders (chars "Hi  {{name}}")).
  assert (H3 : spaces_collapsed (chars "Hi  {}") (chars "Hi {}"))
    by exact (replace_spaces (chars "Hi  {}")).
  split; [exact H1|]. split; [exact H2|]. split; [exact H3|].
  exact (proj1 (proj2 strippedString_normalises) "Hi  {{name}}" _ _ _ H1 H2 H3).
Defined.

(** ** Occurrences *)

(** Modelled from the spec: [WalkerResult] is declared in [walker.ts], which is
    not among the sources.  The specification gives an occurrence the fields
    [id], [value] (optional), [state] ([success], [warning] or [error]),
    [error] (the explanation, optional) and [location]; the scanner itself
    reads and writes [id], [value], [state] and [error]. *)
Inductive State := Success | Warning | Error.

Record WalkerResult := {
  id : string;
  value : option string;
  state : State;
  error : option string;
  location : nat;
}.

(** The scanner uses two readings of a [Uri]: [uri.path] and
    [uri.toString()]. *)
Record Uri := { path : string; toString : string }.

(** [WalkerResult & { file: Uri }] *)
Record WalkerByIdResult := { result : WalkerResult; file : Uri }.

Global Instance State_eq_dec : EqDecision State.
Proof. solve_decision. Defined.
Global Instance WalkerResult_eq_dec : EqDecision WalkerResult.
Proof. solve_decision. Defined.
Global Instance Uri_eq_dec : EqDecision Uri.
Proof. solve_decision. Defined.
Global Instance WalkerByIdResult_eq_dec : EqDecision WalkerByIdResult.
Proof. solve_decision. Defined.

(** [{ ...r, state: st, error: msg }] *)
Definition set_state (st : State) (msg : string) (r : WalkerByIdResult)
  : WalkerByIdResult :=
  {| result := {| id := id (result r); value := value (result r);
                  state := st; error := Some msg;
                  location := location (result r) |};
     file := file r |}.

(** ** The validated view *)

Definition mismatch_message : string :=
  "There are other items registered with this ID whose value do not match!".

Definition html_message : string :=
  "This translation contains HTML tag. This is not recommended!".

(** [Boolean(value)] on a [string | undefined]: a value that is there and is
    not the empty string. *)
Definition truthy (v : option string) : option string :=
  match v with
  | Some "" => None
  | other => other
  end.

(** [resultsCopy.map(result => result.value).filter(Boolean)] *)
Definition values (results : list WalkerByIdResult) : list string :=
  omap (λ r, truthy (value (result r))) results.

(** [str.indexOf(c)] for a one-character needle: the first index, or -1. *)
Fixpoint indexOf_from (c : ascii) (s : string) (i : Z) : Z :=
  match s with
  | EmptyString => (-1)%Z
  | String a s' => if bool_decide (a = c) then i else indexOf_from c s' (i + 1)%Z
  end.

Definition indexOf (c : ascii) (s : string) : Z := indexOf_from c s 0.

(** Lines 37 to 44: the values of a bucket are compared after normalisation. *)
Definition check_consistency (results : list WalkerByIdResult)
  : list WalkerByIdResult :=
  let vs := values results in
  let stripped0 := strippedString (head vs) in
  if bool_decide (1 < length vs)
     && existsb (λ v, bool_decide (strippedString (Some v) ≠ stripped0)) vs
  then map (set_state Error mismatch_message) results
  else results.

(** Lines 45 to 54, for one element of the array. *)
Definition check_html (r : WalkerByIdResult) : WalkerByIdResult :=
  match state (result r) with
  | Success =>
      match truthy (value (result r)) with
      | Some v =>
          if bool_decide (indexOf "<" v ≠ (-1)%Z)
          then set_state Warning html_message r
          else r
      | None => r
      end
  | _ => r
  end.

Definition validate_bucket (results : list WalkerByIdResult)
  : list WalkerByIdResult :=
  map check_html (check_consistency results).

(** [validatedResultsById$], as a function of the contents of the
    by-identifier view it is computed from. *)
Definition validatedResultsById (res : gmap string (list WalkerByIdResult))
  : gmap string (list WalkerByIdResult) :=
  validate_bucket <$> res.

Definition occ (i v : string) (f : string) : WalkerByIdResult :=
  {| result := {| id := i; value := Some v; state := Success; error := None;
                  location := 0 |};
     file := {| path := f; toString := "file://" +:+ f |} |}.

Example validate_equal :
  validate_bucket [occ "welcome" "Hello {{name}}" "/a.html";
                   occ "welcome" "Hello {{other}}" "/b.html"]
  = [occ "welcome" "Hello {{name}}" "/a.html";
     occ "welcome" "Hello {{other}}" "/b.html"].
Proof. vm_compute. reflexivity. Qed.

Example validate_differ :
  validate_bucket [occ "welcome" "Hello {{name}}" "/a.html";
                   occ "welcome" "Hi {{other}}" "/b.html"]
  = map (set_state Error mismatch_message)
      [occ "welcome" "Hello {{name}}" "/a.html";
       occ "welcome" "Hi {{other}}" "/b.html"].
Proof. vm_compute. reflexivity. Qed.

Example validate_html :
  validate_bucket [occ "t" "<b>Hello</b>" "/a.html"]
  = [set_state Warning html_message (occ "t" "<b>Hello</b>" "/a.html")].
Proof. vm_compute. reflexivity. Qed.

(** C5, as stated, fails: a placeholder between double braces is not
    collapsed when it is empty or when its text holds a closing brace, as
    the argument of a pipe does; such a placeholder is left as it is, or cut
    at the first pair of closing braces, and two values that differ only in
    the text of such a placeholder normalise differently, so that their
    bucket is marked. *)
Lemma placeholder_with_brace_not_collapsed :
  strippedString (Some "Hi {{}}") = Some "Hi {{}}" ∧
  strippedString (Some "{{a}b}}") = Some "{{a}b}}" ∧
  strippedString (Some "{{ 'KEY' | translate:{value: 1} }}")
  = Some "{{ 'KEY' | translate:{value: 1} }}" ∧
  strippedString (Some "Total: {{ {a: {b: 1}} | json }}")
  = Some "Total: {} | json }}" ∧
  strippedString (Some "{{ name | pad:{n: 1} }}")
  ≠ strippedString (Some "{{ other | pad:{n: 1} }}") ∧
  validate_bucket [occ "welcome" "{{ name | pad:{n: 1} }}" "/a.html";
                   occ "welcome" "{{ other | pad:{n: 1} }}" "/b.html"]
  = map (set_state Error mismatch_message)
      [occ "welcome" "{{ name | pad:{n: 1} }}" "/a.html";
       occ "welcome" "{{ other | pad:{n: 1} }}" "/b.html"].
Proof.
  split; [vm_compute; reflexivity|]. split; [vm_compute; reflexivity|].
  split; [vm_compute; reflexivity|]. split; [vm_compute; reflexivity|].
  split; [vm_compute; discriminate|]. vm_compute. reflexivity.
Qed.

(** *** Properties of the two rules *)

Lemma truthy_Some v s : truthy v = Some s ↔ v = Some s ∧ s ≠ "".
Proof.
  destruct v as [[|a v]|]; simpl; split; try (intros [[=] ?]); try intros [=]; subst; try done.
Qed.

Lemma truthy_None v : truthy v = None ↔ v = None ∨ v = Some "".
Proof.
  destruct v as [[|a v]|]; simpl; split; try intros [[=]|[=]]; try intros [=]; auto.
Qed.

Lemma indexOf_from_absent c s i : c ∉ chars s → indexOf_from c s i = (-1)%Z.
Proof.
  revert i. induction s as [|a s IH]; intros i Hc; [done|]. simpl in *.
  rewrite bool_decide_eq_false_2.
  - apply IH. intros Hin. apply Hc. by right.
  - intros ->. apply Hc. left.
Qed.

Lemma indexOf_from_present c s i :
  (0 ≤ i)%Z → c ∈ chars s → (i ≤ indexOf_from c s i)%Z.
Proof.
  revert i. induction s as [|a s IH]; intros i Hi Hc; simpl in *.
  - by apply elem_of_nil in Hc.
  - case_bool_decide as Ha; [lia|].
    apply elem_of_cons in Hc as [->|Hc]; [done|].
    specialize (IH (i + 1)%Z ltac:(lia) Hc). lia.
Qed.

Lemma indexOf_found c s : indexOf c s ≠ (-1)%Z ↔ c ∈ chars s.
Proof.
  unfold indexOf. split.
  - intros Hne. destruct (decide (c ∈ chars s)) as [|Hno]; [done|].
    by rewrite indexOf_from_absent in Hne.
  - intros Hin. pose proof (indexOf_from_present c s 0 ltac:(lia) Hin). lia.
Qed.

Lemma check_html_not_success r :
  state (result r) ≠ Success → check_html r = r.
Proof. unfold check_html. by destruct (state (result r)). Qed.

Lemma check_html_no_value r :
  truthy (value (result r)) = None → check_html r = r.
Proof. unfold check_html. intros ->. by destruct (state (result r)). Qed.

Lemma check_html_tag r v :
  state (result r) = Success → value (result r) = Some v → "<"%char ∈ chars v →
  check_html r = set_state Warning html_message r.
Proof.
  intros Hs Hv Hin. unfold check_html. rewrite Hs, Hv.
  assert (Ht : truthy (Some v) = Some v).
  { apply truthy_Some. split; [done|]. intros ->. by apply elem_of_nil in Hin. }
  rewrite Ht. by rewrite bool_decide_eq_true_2 by by apply indexOf_found.
Qed.

Lemma check_html_no_tag r :
  (∀ v, value (result r) = Some v → "<"%char ∉ chars v) → check_html r = r.
Proof.
  intros Hno. unfold check_html. destruct (state (result r)); try done.
  destruct (truthy _) as [v|] eqn:Ht; [|done].
  apply truthy_Some in Ht as [Hv _].
  rewrite bool_decide_eq_false_2; [done|].
  intros Hf. by apply (Hno v Hv), indexOf_found.
Qed.

Lemma check_html_state r :
  state (result r) ≠ Success → state (result (check_html r)) ≠ Success.
Proof. intros Hs. by rewrite check_html_not_success. Qed.

Lemma check_html_marked msg results :
  map check_html (map (set_state Error msg) results)
  = map (set_state Error msg) results.
Proof. rewrite map_map. by apply map_ext. Qed.

(** The condition of line 40, as a proposition. *)
Definition values_differ (results : list WalkerByIdResult) : Prop :=
  1 < length (values results) ∧
  ∃ v, v ∈ values results ∧
       strippedString (Some v) ≠ strippedString (head (values results)).

Lemma existsb_elem_of {A} (f : A → bool) (l : list A) :
  existsb f l = true ↔ ∃ x, x ∈ l ∧ f x = true.
Proof.
  rewrite existsb_exists. split; intros (x & Hx & Hf); exists x; split; try done;
    by apply list_elem_of_In.
Qed.

Lemma check_consistency_marks results :
  values_differ results →
  check_consistency results = map (set_state Error mismatch_message) results.
Proof.
  intros [Hlen (v & Hv & Hne)]. unfold check_consistency.
  rewrite bool_decide_eq_true_2 by done. simpl.
  replace (existsb _ _) with true; [done|]. symmetry.
  apply existsb_elem_of. exists v. split; [done|]. by apply bool_decide_eq_true.
Qed.

Lemma check_consistency_keeps results :
  ¬ values_differ results → check_consistency results = results.
Proof.
  intros Hno. unfold check_consistency.
  destruct (bool_decide (1 < length (values results))) eqn:Hlen; [|done]. simpl.
  destruct (existsb _ _) eqn:Hex; [|done].
  exfalso. apply Hno. apply bool_decide_eq_true in Hlen.
  apply existsb_elem_of in Hex as (v & Hv & Hne%bool_decide_eq_true).
  split; [done|]. by exists v.
Qed.

Lemma values_differ_dec results : values_differ results ∨ ¬ values_differ results.
Proof.
  destruct (bool_decide (1 < length (values results))
            && existsb (λ v, bool_decide (strippedString (Some v)
                 ≠ strippedString (head (values results)))) (values results)) eqn:Hb.
  - left. apply andb_true_iff in Hb as [Hlen%bool_decide_eq_true Hex].
    apply existsb_elem_of in Hex as (v & Hv & Hne%bool_decide_eq_true).
    split; [done|]. by exists v.
  - right. intros [Hlen (v & Hv & Hne)].
    apply andb_false_iff in Hb as [Hb|Hb].
    + by apply bool_decide_eq_false in Hb.
    + assert (existsb (λ v, bool_decide (strippedString (Some v)
                 ≠ strippedString (head (values results)))) (values results) = true);
        [|congruence].
      apply existsb_elem_of. exists v. split; [done|]. by apply bool_decide_eq_true.
Qed.

(** The occurrences that take part in the comparison are those that carry a
    value which is not empty. *)
Definition carries_value (r : WalkerByIdResult) : Prop :=
  is_Some (truthy (value (result r))).

Global Instance carries_value_dec r : Decision (carries_value r).
Proof. unfold carries_value. apply _. Defined.

Definition carrying (results : list WalkerByIdResult) : list WalkerByIdResult :=
  filter carries_value results.

(** The normalised value of an occurrence. *)
Definition normalized (r : WalkerByIdResult) : option string :=
  strippedString (value (result r)).

Lemma carries_value_Some r :
  carries_value r → ∃ v, value (result r) = Some v ∧ v ≠ "" ∧
                         truthy (value (result r)) = Some v.
Proof.
  intros [v Hv]. exists v. pose proof Hv as [? ?]%truthy_Some. done.
Qed.

Lemma values_carrying results :
  values results = omap (λ r, value (result r)) (carrying results).
Proof.
  unfold values, carrying. induction results as [|r results IH]; [done|].
  simpl. rewrite filter_cons. destruct (decide (carries_value r)) as [Hc|Hc].
  - destruct (carries_value_Some r Hc) as (v & Hv & _ & Ht).
    simpl. rewrite Ht, Hv. by f_equal.
  - unfold carries_value in Hc. destruct (truthy _); [|done].
    exfalso. by apply Hc.
Qed.

Lemma values_length results : length (values results) = length (carrying results).
Proof.
  rewrite values_carrying. unfold carrying.
  induction results as [|r results IH]; [done|].
  rewrite filter_cons. destruct (decide (carries_value r)) as [Hc|Hc]; [|done].
  destruct (carries_value_Some r Hc) as (v & Hv & _). simpl. rewrite Hv. simpl. by f_equal.
Qed.

Lemma values_head results :
  strippedString (head (values results))
  = from_option normalized None (head (carrying results)).
Proof.
  rewrite values_carrying. unfold carrying.
  induction results as [|r results IH]; [done|].
  rewrite filter_cons. destruct (decide (carries_value r)) as [Hc|Hc]; [|done].
  destruct (carries_value_Some r Hc) as (v & Hv & _). simpl. rewrite Hv. simpl.
  unfold normalized. by rewrite Hv.
Qed.

Lemma values_elem_of results v :
  v ∈ values results ↔
  ∃ r, r ∈ carrying results ∧ value (result r) = Some v.
Proof. rewrite values_carrying. apply list_elem_of_omap. Qed.

Lemma values_differ_carrying results :
  values_differ results ↔
  ∃ r0 r, head (carrying results) = Some r0 ∧ r ∈ carrying results ∧
          normalized r ≠ normalized r0.
Proof.
  unfold values_differ. rewrite values_head, values_length. split.
  - intros [Hlen (v & (r & Hr & Hv)%values_elem_of & Hne)].
    destruct (carrying results) as [|r0 rs] eqn:Hc; [simpl in Hlen; lia|].
    exists r0, r. simpl in Hne. unfold normalized at 1. by rewrite Hv.
  - intros (r0 & r & Hhd & Hr & Hne). rewrite Hhd. simpl.
    assert (Hv : ∃ v, value (result r) = Some v).
    { apply list_elem_of_filter in Hr as [Hc _].
      destruct (carries_value_Some r Hc) as (v & ? & _). by exists v. }
    destruct Hv as [v Hv]. split.
    + destruct (carrying results) as [|r1 [|r2 rs]]; simpl in *; try done; [|lia].
      injection Hhd as ->. apply list_elem_of_singleton in Hr. by subst.
    + exists v. split.
      * apply values_elem_of. by exists r.
      * unfold normalized in Hne at 1. by rewrite Hv in Hne.
Qed.

Lemma carries_value_iff r :
  carries_value r ↔ ∃ v, value (result r) = Some v ∧ v ≠ "".
Proof.
  split.
  - intros (v & ? & ? & _)%carries_value_Some. by exists v.
  - intros (v & Hv & Hne). exists v. by apply truthy_Some.
Qed.

Lemma validate_bucket_lookup results i :
  validate_bucket results !! i = check_html <$> check_consistency results !! i.
Proof. unfold validate_bucket. apply list_lookup_fmap. Qed.

Lemma check_consistency_lookup results i r0 r :
  results !! i = Some r0 → check_consistency results !! i = Some r →
  r = r0 ∨ r = set_state Error mismatch_message r0.
Proof.
  intros H0 Hr. destruct (values_differ_dec results) as [Hd|Hd].
  - rewrite check_consistency_marks in Hr by done.
    change (map ?f ?l) with (f <$> l) in Hr.
    rewrite list_lookup_fmap, H0 in Hr. right. by injection Hr.
  - rewrite check_consistency_keeps in Hr by done. left. congruence.
Qed.

Definition no_value (i f : string) : WalkerByIdResult :=
  {| result := {| id := i; value := None; state := Success; error := None;
                  location := 0 |};
     file := {| path := f; toString := "file://" +:+ f |} |}.

(** C4. After the consistency step, an occurrence still in state [success]
    whose raw value contains [<] becomes [warning] with the fixed message;
    one without a value, or in a state other than [success], is left as it
    is; and no occurrence that was not [success] in the view is [success] in
    the validated view. *)
Theorem html_rule_escalates (res : gmap string (list WalkerByIdResult))
    (key : string) (b : list WalkerByIdResult) (i : nat) (r : WalkerByIdResult) :
  res !! key = Some b →
  check_consistency b !! i = Some r →
  ∃ r', validatedResultsById res !! key = Some (validate_bucket b) ∧
        validate_bucket b !! i = Some r' ∧
        (state (result r) = Success →
         (∃ v, value (result r) = Some v ∧ "<"%char ∈ chars v) →
         r' = set_state Warning html_message r) ∧
        (state (result r) = Success →
         (∀ v, value (result r) = Some v → "<"%char ∉ chars v) → r' = r) ∧
        (value (result r) = None → r' = r) ∧
        (state (result r) ≠ Success → r' = r) ∧
        (∀ r0, b !! i = Some r0 → state (result r0) ≠ Success →
               state (result r') ≠ Success).
Proof.
  intros Hb Hr. exists (check_html r).
  split; [unfold validatedResultsById; by rewrite lookup_fmap, Hb|].
  split; [by rewrite validate_bucket_lookup, Hr|].
  split; [intros Hs (v & Hv & Hin); by apply (check_html_tag r v)|].
  split; [intros _ Hno; by apply check_html_no_tag|].
  split; [intros Hv; apply check_html_no_value; by rewrite Hv|].
  split; [apply check_html_not_success|].
  intros r0 H0 Hs. apply check_html_state.
  destruct (check_consistency_lookup _ _ _ _ H0 Hr) as [->| ->]; done.
Qed.

Lemma html_rule_escalates_witness :
  let b := [occ "t" "<b>Hello</b>" "/a.html"] in
  ({[ "t" := b ]} : gmap string (list WalkerByIdResult)) !! "t" = Some b ∧
  check_consistency b !! 0 = Some (occ "t" "<b>Hello</b>" "/a.html") ∧
  ∃ r', validate_bucket b !! 0 = Some r' ∧ state (result r') = Warning ∧
        error (result r') = Some html_message.
Proof.
  assert (H1 : ({[ "t" := [occ "t" "<b>Hello</b>" "/a.html"] ]}
                 : gmap string (list WalkerByIdResult)) !! "t"
               = Some [occ "t" "<b>Hello</b>" "/a.html"]) by reflexivity.
  assert (H2 : check_consistency [occ "t" "<b>Hello</b>" "/a.html"] !! 0
               = Some (occ "t" "<b>Hello</b>" "/a.html")) by reflexivity.
  split; [exact H1|]. split; [exact H2|].
  destruct (html_rule_escalates _ "t" _ 0 _ H1 H2) as (r' & _ & Hl & Hw & _).
  exists r'. split; [exact Hl|].
  rewrite (Hw eq_refl); [split; reflexivity|].
  exists "<b>Hello</b>". split; [reflexivity|]. left.
Defined.

(** C1, as stated, fails: the second occurrence has no value, so its
    normalised value differs from that of the first occurrence, and yet no
    occurrence of the bucket is marked. *)
Lemma consistency_first_occurrence_fails :
  let b := [occ "greet" "Hi {{name}}" "/a.html"; no_value "greet" "/b.html"] in
  2 ≤ length b ∧
  (∃ r0 r, head b = Some r0 ∧ r ∈ b ∧ normalized r ≠ normalized r0) ∧
  validate_bucket b = b ∧
  Forall (λ r, state (result r) = Success) (validate_bucket b).
Proof.
  split; [simpl; lia|]. split.
  - exists (occ "greet" "Hi {{name}}" "/a.html"), (no_value "greet" "/b.html").
    split; [reflexivity|]. split; [right; left|]. discriminate.
  - split; [vm_compute; reflexivity|]. repeat constructor.
Qed.

(** C1, amended. If an occurrence with a non-empty value normalises
    differently from the first occurrence of the bucket that has a non-empty
    value, every occurrence of the bucket is [error] with the fixed message in
    the validated view, whatever its state was; otherwise the consistency rule
    marks no occurrence of the bucket. *)
Theorem consistency_rule_marks_bucket (b : list WalkerByIdResult) :
  ((∃ r0 r, head (carrying b) = Some r0 ∧ r ∈ b ∧ carries_value r ∧
            normalized r ≠ normalized r0) →
   validate_bucket b = map (set_state Error mismatch_message) b ∧
   ∀ r', r' ∈ validate_bucket b →
         state (result r') = Error ∧ error (result r') = Some mismatch_message) ∧
  (¬ (∃ r0 r, head (carrying b) = Some r0 ∧ r ∈ b ∧ carries_value r ∧
              normalized r ≠ normalized r0) →
   check_consistency b = b).
Proof.
  split.
  - intros (r0 & r & Hhd & Hr & Hc & Hne).
    assert (Hd : values_differ b).
    { apply values_differ_carrying. exists r0, r. split; [done|]. split; [|done].
      by apply list_elem_of_filter. }
    assert (Hv : validate_bucket b = map (set_state Error mismatch_message) b).
    { unfold validate_bucket. by rewrite check_consistency_marks, check_html_marked. }
    split; [done|]. intros r'. rewrite Hv.
    change (map ?f ?l) with (f <$> l). by intros (? & -> & _)%list_elem_of_fmap.
  - intros Hno. apply check_consistency_keeps.
    intros (r0 & r & Hhd & [Hc Hr]%list_elem_of_filter & Hne)%values_differ_carrying.
    apply Hno. by exists r0, r.
Qed.

Lemma consistency_rule_marks_bucket_witness :
  let b := [no_value "greet" "/c.html"; occ "greet" "Hi {{name}}" "/a.html";
            occ "greet" "Bye {{name}}" "/b.html"] in
  (∃ r0 r, head (carrying b) = Some r0 ∧ r ∈ b ∧ carries_value r ∧
           normalized r ≠ normalized r0) ∧
  validate_bucket b = map (set_state Error mismatch_message) b.
Proof.
  assert (H : ∃ r0 r,
             head (carrying [no_value "greet" "/c.html"; occ "greet" "Hi {{name}}" "/a.html";
                             occ "greet" "Bye {{name}}" "/b.html"]) = Some r0 ∧
             r ∈ [no_value "greet" "/c.html"; occ "greet" "Hi {{name}}" "/a.html";
                  occ "greet" "Bye {{name}}" "/b.html"] ∧
             carries_value r ∧ normalized r ≠ normalized r0).
  { exists (occ "greet" "Hi {{name}}" "/a.html"), (occ "greet" "Bye {{name}}" "/b.html").
    split; [reflexivity|]. split; [right; right; left|]. split; [by eexists|].
    vm_compute. discriminate. }
  split; [exact H|].
  exact (proj1 (proj1 (consistency_rule_marks_bucket _) H)).
Defined.

(** C10. Occurrences whose value is absent or empty take no part in the
    comparison: the reference is the normalised value of the first occurrence
    with a non-empty value, the bucket is marked exactly when at least two
    occurrences have a non-empty value and one of them normalises differently
    from the reference, and so a bucket with at most one non-empty value is
    never marked. *)
Theorem consistency_skips_empty_values (b : list WalkerByIdResult) :
  (∀ r, r ∈ carrying b ↔ r ∈ b ∧ ∃ v, value (result r) = Some v ∧ v ≠ "") ∧
  (2 ≤ length (carrying b) ∧
   (∃ r0 r, head (carrying b) = Some r0 ∧ r ∈ carrying b ∧
            normalized r ≠ normalized r0) →
   check_consistency b = map (set_state Error mismatch_message) b) ∧
  (check_consistency b ≠ b →
   2 ≤ length (carrying b) ∧
   ∃ r0 r, head (carrying b) = Some r0 ∧ r ∈ carrying b ∧
           normalized r ≠ normalized r0) ∧
  (length (carrying b) ≤ 1 →
   check_consistency b = b ∧ validate_bucket b = map check_html b).
Proof.
  split.
  { intros r. unfold carrying. rewrite list_elem_of_filter, carries_value_iff. tauto. }
  split.
  { intros [_ Hd]. by apply check_consistency_marks, values_differ_carrying. }
  split.
  { intros Hne. destruct (values_differ_dec b) as [Hd|Hd].
    - split; [|by apply values_differ_carrying].
      destruct Hd as [Hlen _]. rewrite values_length in Hlen. lia.
    - by rewrite check_consistency_keeps in Hne. }
  intros Hlen.
  assert (Hk : check_consistency b = b).
  { apply check_consistency_keeps. intros [Hl _]. rewrite values_length in Hl. lia. }
  split; [done|]. unfold validate_bucket. by rewrite Hk.
Qed.

Lemma consistency_skips_empty_values_witness :
  let b := [no_value "greet" "/c.html"; occ "greet" "Hi" "/a.html";
            no_value "greet" "/b.html"] in
  length (carrying b) ≤ 1 ∧ check_consistency b = b.
Proof.
  assert (H : length (carrying [no_value "greet" "/c.html"; occ "greet" "Hi" "/a.html";
                                no_value "greet" "/b.html"]) ≤ 1) by (vm_compute; lia).
  split; [exact H|].
  exact (proj1 (proj2 (proj2 (proj2 (consistency_skips_empty_values _))) H)).
Defined.

(** ** The scanner

    The by-identifier map holds its buckets as arrays, and [onDocumentSave]
    changes these arrays with [splice] and [push] after copying the map only.
    The arrays therefore live in a store, [arrays], and a by-identifier map
    binds an identifier to the place of its array.  The arrays of the by-file
    map and the records are never written to after they are made, and are
    kept as values. *)

Inductive EngineState := uninitialized | initializing | initialized.

(** A place in the store of arrays. *)
Abbreviation loc := nat.

(** What the two subjects have been given with [next], in order. *)
Inductive Emission :=
  | ByFile (m : gmap string (list WalkerResult))
  | ById (m : gmap string loc).

Inductive LogLine := Log (msg : string) | LogError (msg : string).

Record WorkspaceScanner := {
  _state : EngineState;
  _resultsByFile : option (gmap string (list WalkerResult));
  _resultsById : option (gmap string loc);
  arrays : list (list WalkerByIdResult);
  emitted : list Emission;
  console : list LogLine;
}.

(** [new WorkspaceScanner()] *)
Definition new_scanner : WorkspaceScanner :=
  {| _state := uninitialized; _resultsByFile := None; _resultsById := None;
     arrays := []; emitted := []; console := [] |}.

(** A document: its [uri], its text, and what [new Walker(parse(text))
    .geti18nAttributes()] gives for it (the walker is not among the
    sources). *)
Record TextDocument := {
  uri : Uri;
  getText : string;
  geti18nAttributes : list WalkerResult;
}.

Definition getI18nResultsForFile (document : TextDocument) : list WalkerResult :=
  if bool_decide (getText document = "") then [] else geti18nAttributes document.

(** [s.endsWith(suffix)] *)
Definition endsWith (s suffix : string) : bool :=
  bool_decide (String.length suffix ≤ String.length s)
  && bool_decide (substring (String.length s - String.length suffix)
                    (String.length suffix) s = suffix).

(** [a.findIndex(p)], with [None] for -1. *)
Fixpoint findIndex {A} (p : A → bool) (l : list A) : option nat :=
  match l with
  | [] => None
  | x :: l' => if p x then Some 0 else S <$> findIndex p l'
  end.

(** The contents of the array at [l]. *)
Definition array_at (h : list (list WalkerByIdResult)) (l : loc)
  : list WalkerByIdResult :=
  default [] (h !! l).

(** Lines 91 to 102, for one element of [oldRegistry]. *)
Definition remove_old (key : string)
    (st : gmap string loc * list (list WalkerByIdResult)) (res : WalkerResult)
  : gmap string loc * list (list WalkerByIdResult) :=
  let '(newIdMap, h) := st in
  match newIdMap !! id res with
  | Some l =>
      match findIndex (λ c, bool_decide (toString (file c) = key)) (array_at h l) with
      | Some fileIndex =>
          let entry := delete fileIndex (array_at h l) in
          if bool_decide (length entry = 0)
          then (delete (id res) newIdMap, <[l := entry]> h)
          else (newIdMap, <[l := entry]> h)
      | None => (newIdMap, h)
      end
  | None => (newIdMap, h)
  end.

(** Lines 106 to 114 (and 169 to 177), for one element of [results]; a new
    array takes the next free place of the store. *)
Definition add_new (u : Uri)
    (st : gmap string loc * list (list WalkerByIdResult)) (res : WalkerResult)
  : gmap string loc * list (list WalkerByIdResult) :=
  let '(newIdMap, h) := st in
  let newRecord := {| result := res; file := u |} in
  match newIdMap !! id res with
  | Some l => (newIdMap, <[l := array_at h l ++ [newRecord]]> h)
  | None => (<[id res := length h]> newIdMap, h ++ [[newRecord]])
  end.

(** [_resultsByFile$.next(m)]: the subscriber of line 66 stores the map. *)
Definition next_byFile (m : gmap string (list WalkerResult)) (s : WorkspaceScanner)
  : WorkspaceScanner :=
  {| _state := _state s; _resultsByFile := Some m; _resultsById := _resultsById s;
     arrays := arrays s; emitted := emitted s ++ [ByFile m]; console := console s |}.

(** [_resultsById$.next(m)]: the subscriber of line 67 stores the map. *)
Definition next_byId (m : gmap string loc) (s : WorkspaceScanner) : WorkspaceScanner :=
  {| _state := _state s; _resultsByFile := _resultsByFile s; _resultsById := Some m;
     arrays := arrays s; emitted := emitted s ++ [ById m]; console := console s |}.

Definition with_arrays (h : list (list WalkerByIdResult)) (s : WorkspaceScanner)
  : WorkspaceScanner :=
  {| _state := _state s; _resultsByFile := _resultsByFile s;
     _resultsById := _resultsById s; arrays := h; emitted := emitted s;
     console := console s |}.

Definition with_state (st : EngineState) (s : WorkspaceScanner) : WorkspaceScanner :=
  {| _state := st; _resultsByFile := _resultsByFile s;
     _resultsById := _resultsById s; arrays := arrays s; emitted := emitted s;
     console := console s |}.

Definition log (line : LogLine) (s : WorkspaceScanner) : WorkspaceScanner :=
  {| _state := _state s; _resultsByFile := _resultsByFile s;
     _resultsById := _resultsById s; arrays := arrays s; emitted := emitted s;
     console := console s ++ [line] |}.

(** The maps a save builds (lines 82 to 114), from the published maps and the
    store: the new by-file map, the new by-identifier map and the store after
    the [splice] and [push] calls. *)
Definition save_maps (document : TextDocument)
    (byFile : gmap string (list WalkerResult)) (byId : gmap string loc)
    (h : list (list WalkerByIdResult))
  : gmap string (list WalkerResult) * (gmap string loc * list (list WalkerByIdResult)) :=
  let results := getI18nResultsForFile document in
  let key := toString (uri document) in
  let newFileMap := <[key := results]> byFile in
  let oldRegistry := default [] (byFile !! key) in
  let removed := foldl (remove_old key) (byId, h) oldRegistry in
  (newFileMap, foldl (add_new (uri document)) removed results).

Definition onDocumentSave (document : TextDocument) (s : WorkspaceScanner)
  : WorkspaceScanner :=
  if negb (endsWith (path (uri document)) ".html") then s
  else
    match _resultsByFile s, _resultsById s with
    | Some byFile, Some byId =>
        let '(newFileMap, (newIdMap, h)) := save_maps document byFile byId (arrays s) in
        next_byId newIdMap (next_byFile newFileMap (with_arrays h s))
    | _, _ =>
        log (LogError "[i18n-manager] We were not able to handle a saved document") s
    end.

(** The outcome of one [openTextDocument(uri).then(...)] promise of the
    initial scan: its callback has run on the opened document, or the
    promise is rejected (the document could not be opened, or the callback
    threw in [getI18nResultsForFile], before it touched the maps). *)
Inductive ScanOutcome :=
  | Fulfilled (document : TextDocument)
  | Rejected (u : Uri) (err : string).

Definition fulfilled (o : ScanOutcome) : option TextDocument :=
  match o with Fulfilled d => Some d | Rejected _ _ => None end.

Definition rejected (o : ScanOutcome) : option string :=
  match o with Fulfilled _ => None | Rejected _ err => Some err end.

(** Lines 165 to 179: the callback of one opened document. *)
Definition scan_document
    (st : gmap string (list WalkerResult) * (gmap string loc * list (list WalkerByIdResult)))
    (document : TextDocument)
  : gmap string (list WalkerResult) * (gmap string loc * list (list WalkerByIdResult)) :=
  let walkerResults := getI18nResultsForFile document in
  if bool_decide (0 < length walkerResults) then
    (<[toString (uri (document)) := walkerResults]> st.1,
     foldl (add_new (uri document)) st.2 walkerResults)
  else st.

(** Lines 151 to 160: the part of [initialize] that runs at the call.  The
    boolean tells whether a scan was started. *)
Definition initialize_call (s : WorkspaceScanner) : WorkspaceScanner * bool :=
  match _state s with
  | uninitialized =>
      (with_state initializing
         (log (Log "[i18n-manager] initializing i18n repository") s), true)
  | _ => (s, false)
  end.

(** Lines 162 to 191: the promises settle; [outcomes] lists them in the order
    in which they settled. *)
Definition scan_settled (outcomes : list ScanOutcome) (s : WorkspaceScanner)
  : WorkspaceScanner :=
  let '(resultByFileName, (resultById, h)) :=
    foldl scan_document (∅, (∅, arrays s)) (omap fulfilled outcomes) in
  match omap rejected outcomes with
  | [] =>
      log (Log "[i18n-manager] initialized i18n repository")
        (next_byId resultById
           (next_byFile resultByFileName
              (with_state initialized (with_arrays h s))))
  | err :: _ =>
      log (LogError ("[i18n-manager]: Failed to initialize i18n repository: " +:+ err))
        (with_arrays h s)
  end.

Definition initialize (outcomes : list ScanOutcome) (s : WorkspaceScanner)
  : WorkspaceScanner :=
  let '(s', started) := initialize_call s in
  if started then scan_settled outcomes s' else s'.

(** The contents of a by-identifier map: every identifier with the contents
    of its array. *)
Definition view (h : list (list WalkerByIdResult)) (m : gmap string loc)
  : gmap string (list WalkerByIdResult) :=
  omap (λ l, h !! l) m.

Definition byFile_view (s : WorkspaceScanner) : gmap string (list WalkerResult) :=
  default ∅ (_resultsByFile s).

Definition byId_view (s : WorkspaceScanner) : gmap string (list WalkerByIdResult) :=
  view (arrays s) (default ∅ (_resultsById s)).

(** ** The store and the contents of the maps

    In every state the scanner reaches, the arrays of a by-identifier map are
    in the store and no two identifiers share an array.  Under this
    condition the [splice] and [push] of a save act on the contents of the
    new map as the functions [remove_old_view] and [add_new_view] below. *)

Definition wf_store (h : list (list WalkerByIdResult)) (m : gmap string loc) : Prop :=
  (∀ k l, m !! k = Some l → l < length h) ∧
  (∀ k1 k2 l, m !! k1 = Some l → m !! k2 = Some l → k1 = k2).

Definition tagged (key : string) (c : WalkerByIdResult) : Prop :=
  toString (file c) = key.

Global Instance tagged_dec key c : Decision (tagged key c).
Proof. unfold tagged. apply _. Defined.

(** The [findIndex] and [splice] of lines 94 to 96 on the contents of one
    array. *)
Definition remove_first (key : string) (entry : list WalkerByIdResult)
  : list WalkerByIdResult :=
  match findIndex (λ c, bool_decide (tagged key c)) entry with
  | Some fileIndex => delete fileIndex entry
  | None => entry
  end.

Definition remove_old_view (key : string)
    (bm : gmap string (list WalkerByIdResult)) (res : WalkerResult)
  : gmap string (list WalkerByIdResult) :=
  match bm !! id res with
  | Some entry =>
      match findIndex (λ c, bool_decide (tagged key c)) entry with
      | Some fileIndex =>
          if bool_decide (length (delete fileIndex entry) = 0)
          then delete (id res) bm
          else <[id res := delete fileIndex entry]> bm
      | None => bm
      end
  | None => bm
  end.

Definition add_new_view (u : Uri)
    (bm : gmap string (list WalkerByIdResult)) (res : WalkerResult)
  : gmap string (list WalkerByIdResult) :=
  <[id res := default [] (bm !! id res) ++ [{| result := res; file := u |}]]> bm.

Definition view_of (st : gmap string loc * list (list WalkerByIdResult))
  : gmap string (list WalkerByIdResult) :=
  view st.2 st.1.

Definition wf_st (st : gmap string loc * list (list WalkerByIdResult)) : Prop :=
  wf_store st.2 st.1.

Lemma view_lookup h m k : view h m !! k = m !! k ≫= (h !!.).
Proof. unfold view. apply lookup_omap. Qed.

Lemma view_lookup_Some h m k l :
  wf_store h m → m !! k = Some l → view h m !! k = Some (array_at h l).
Proof.
  intros [Hdom _] Hk. rewrite view_lookup, Hk. simpl.
  destruct (lookup_lt_is_Some_2 h l (Hdom _ _ Hk)) as [x Hx].
  unfold array_at. by rewrite Hx.
Qed.

Lemma view_lookup_None h m k : m !! k = None → view h m !! k = None.
Proof. intros Hk. by rewrite view_lookup, Hk. Qed.

Lemma view_store_insert h m k l entry :
  wf_store h m → m !! k = Some l →
  view (<[l := entry]> h) m = <[k := entry]> (view h m).
Proof.
  intros [Hdom Hinj] Hk. apply map_eq. intros k'.
  rewrite view_lookup. destruct (decide (k = k')) as [<-|Hne].
  - rewrite lookup_insert_eq, Hk. simpl.
    apply list_lookup_insert_eq. eauto.
  - rewrite lookup_insert_ne, view_lookup by done.
    destruct (m !! k') as [l'|] eqn:Hk'; [|done]. simpl.
    apply list_lookup_insert_ne. intros ->. apply Hne. eauto.
Qed.

Lemma view_delete h m k : view h (delete k m) = delete k (view h m).
Proof.
  apply map_eq. intros k'. rewrite view_lookup.
  destruct (decide (k = k')) as [<-|Hne].
  - by rewrite !lookup_delete_eq.
  - by rewrite !lookup_delete_ne, view_lookup.
Qed.

Lemma view_alloc h m k entry :
  wf_store h m →
  view (h ++ [entry]) (<[k := length h]> m) = <[k := entry]> (view h m).
Proof.
  intros [Hdom _]. apply map_eq. intros k'. rewrite view_lookup.
  destruct (decide (k = k')) as [<-|Hne].
  - rewrite !lookup_insert_eq. simpl.
    rewrite lookup_app_r by lia. by rewrite Nat.sub_diag.
  - rewrite !lookup_insert_ne, view_lookup by done.
    destruct (m !! k') as [l'|] eqn:Hk'; [|done]. simpl.
    apply lookup_app_l. eauto.
Qed.

Lemma wf_store_insert h m l entry :
  wf_store h m → wf_store (<[l := entry]> h) m.
Proof. intros [Hdom Hinj]. split; [|done]. intros k l' Hk. rewrite length_insert. eauto. Qed.

Lemma wf_store_delete h m k : wf_store h m → wf_store h (delete k m).
Proof.
  intros [Hdom Hinj]. split.
  - intros k' l [_ Hk]%lookup_delete_Some. eauto.
  - intros k1 k2 l [_ H1]%lookup_delete_Some [_ H2]%lookup_delete_Some. eauto.
Qed.

Lemma wf_store_alloc h m k entry :
  wf_store h m → wf_store (h ++ [entry]) (<[k := length h]> m).
Proof.
  intros [Hdom Hinj]. split.
  - intros k' l. rewrite length_app. simpl.
    intros [[_ <-]|[_ Hk]]%lookup_insert_Some; [lia|]. specialize (Hdom _ _ Hk). lia.
  - intros k1 k2 l [[<- <-]|[Hn1 H1]]%lookup_insert_Some
      [[<- H]|[Hn2 H2]]%lookup_insert_Some; try done.
    + specialize (Hdom _ _ H2). lia.
    + specialize (Hdom _ _ H1). lia.
    + eauto.
Qed.

Lemma remove_old_sim key st res :
  wf_st st →
  wf_st (remove_old key st res) ∧
  view_of (remove_old key st res) = remove_old_view key (view_of st) res.
Proof.
  destruct st as [m h]. unfold wf_st, view_of. simpl. intros Hwf.
  unfold remove_old_view.
  destruct (m !! id res) as [l|] eqn:Hk.
  - rewrite (view_lookup_Some _ _ _ _ Hwf Hk).
    change (λ c, bool_decide (toString (file c) = key))
      with (λ c, bool_decide (tagged key c)).
    destruct (findIndex _ (array_at h l)) as [i|]; [|done].
    case_bool_decide; simpl.
    + split; [by apply wf_store_delete, wf_store_insert|].
      rewrite view_delete, (view_store_insert _ _ _ _ _ Hwf Hk).
      by rewrite delete_insert_eq.
    + split; [by apply wf_store_insert|].
      by apply view_store_insert.
  - by rewrite (view_lookup_None _ _ _ Hk).
Qed.

Lemma add_new_sim u st res :
  wf_st st →
  wf_st (add_new u st res) ∧
  view_of (add_new u st res) = add_new_view u (view_of st) res.
Proof.
  destruct st as [m h]. unfold wf_st, view_of. simpl. intros Hwf.
  unfold add_new_view.
  destruct (m !! id res) as [l|] eqn:Hk; simpl.
  - rewrite (view_lookup_Some _ _ _ _ Hwf Hk). simpl.
    split; [by apply wf_store_insert|]. by apply view_store_insert.
  - rewrite (view_lookup_None _ _ _ Hk). simpl.
    split; [by apply wf_store_alloc|]. by apply view_alloc.
Qed.

Lemma foldl_remove_old_sim key st old :
  wf_st st →
  wf_st (foldl (remove_old key) st old) ∧
  view_of (foldl (remove_old key) st old)
  = foldl (remove_old_view key) (view_of st) old.
Proof.
  revert st. induction old as [|res old IH]; intros st Hwf; [done|]. simpl.
  destruct (remove_old_sim key st res Hwf) as [Hwf' <-]. by apply IH.
Qed.

Lemma foldl_add_new_sim u st results :
  wf_st st →
  wf_st (foldl (add_new u) st results) ∧
  view_of (foldl (add_new u) st results)
  = foldl (add_new_view u) (view_of st) results.
Proof.
  revert st. induction results as [|res results IH]; intros st Hwf; [done|]. simpl.
  destruct (add_new_sim u st res Hwf) as [Hwf' <-]. by apply IH.
Qed.

(** ** What a save does to the contents of a bucket *)

Definition bucket (bm : gmap string (list WalkerByIdResult)) (i : string)
  : list WalkerByIdResult :=
  default [] (bm !! i).

(** A bucket is made with one record and deleted when it becomes empty. *)
Definition no_empty_bucket (bm : gmap string (list WalkerByIdResult)) : Prop :=
  ∀ i b, bm !! i = Some b → b ≠ [].

Lemma bucket_ext bm1 bm2 :
  no_empty_bucket bm1 → no_empty_bucket bm2 →
  (∀ i, bucket bm1 i = bucket bm2 i) → bm1 = bm2.
Proof.
  intros H1 H2 Hb. apply map_eq. intros i. specialize (Hb i). unfold bucket in Hb.
  destruct (bm1 !! i) as [b1|] eqn:E1, (bm2 !! i) as [b2|] eqn:E2; simpl in Hb.
  - by subst.
  - subst. by destruct (H1 _ _ E1).
  - subst. by destruct (H2 _ _ E2).
  - done.
Qed.

Lemma remove_first_cons key x b :
  remove_first key (x :: b)
  = if decide (tagged key x) then b else x :: remove_first key b.
Proof.
  unfold remove_first. simpl. destruct (decide (tagged key x)) as [Ht|Ht].
  - by rewrite bool_decide_eq_true_2.
  - rewrite bool_decide_eq_false_2 by done.
    by destruct (findIndex _ b).
Qed.

Lemma remove_first_not_tagged key b :
  filter (λ c, ¬ tagged key c) (remove_first key b) = filter (λ c, ¬ tagged key c) b.
Proof.
  induction b as [|x b IH]; [done|]. rewrite remove_first_cons.
  destruct (decide (tagged key x)) as [Ht|Ht].
  - rewrite filter_cons_False; [done|]. tauto.
  - rewrite !filter_cons_True by done. by f_equal.
Qed.

Lemma remove_first_tagged key b :
  filter (tagged key) (remove_first key b) = tail (filter (tagged key) b).
Proof.
  induction b as [|x b IH]; [done|]. rewrite remove_first_cons.
  destruct (decide (tagged key x)) as [Ht|Ht].
  - by rewrite filter_cons_True.
  - by rewrite !filter_cons_False.
Qed.

Lemma filter_none_tagged key (b : list WalkerByIdResult) :
  filter (tagged key) b = [] → filter (λ c, ¬ tagged key c) b = b.
Proof.
  induction b as [|x b IH]; [done|].
  destruct (decide (tagged key x)) as [Ht|Ht].
  - by rewrite filter_cons_True.
  - rewrite !filter_cons_False, filter_cons_True by tauto. intros H. f_equal. auto.
Qed.

(** [old] is the old registry of the document; [i] is an identifier. *)
Definition remove_olds (key i : string) (b : list WalkerByIdResult)
    (old : list WalkerResult) : list WalkerByIdResult :=
  foldl (λ b res, if decide (id res = i) then remove_first key b else b) b old.

Lemma remove_olds_not_tagged key i b old :
  filter (λ c, ¬ tagged key c) (remove_olds key i b old)
  = filter (λ c, ¬ tagged key c) b.
Proof.
  unfold remove_olds. revert b. induction old as [|res old IH]; intros b; [done|].
  simpl. rewrite IH. destruct (decide (id res = i)); [|done].
  apply remove_first_not_tagged.
Qed.

Lemma remove_olds_tagged key i b old :
  filter (tagged key) (remove_olds key i b old)
  = drop (length (filter (λ res, id res = i) old)) (filter (tagged key) b).
Proof.
  unfold remove_olds. revert b. induction old as [|res old IH]; intros b; [done|].
  simpl. rewrite IH. destruct (decide (id res = i)) as [He|He].
  - rewrite filter_cons_True by done. rewrite remove_first_tagged. simpl.
    destruct (filter (tagged key) b); simpl; [by rewrite drop_nil|done].
  - by rewrite filter_cons_False.
Qed.

Lemma remove_olds_all key i b old :
  length (filter (tagged key) b) ≤ length (filter (λ res, id res = i) old) →
  remove_olds key i b old = filter (λ c, ¬ tagged key c) b.
Proof.
  intros Hlen. rewrite <- (remove_olds_not_tagged key i b old).
  symmetry. apply filter_none_tagged.
  rewrite remove_olds_tagged. by apply drop_ge.
Qed.

Lemma remove_old_view_bucket key bm res i :
  bucket (remove_old_view key bm res) i
  = if decide (id res = i) then remove_first key (bucket bm i) else bucket bm i.
Proof.
  unfold remove_old_view, bucket, remove_first.
  destruct (decide (id res = i)) as [<-|Hne].
  - destruct (bm !! id res) as [entry|] eqn:He; simpl; [|by rewrite He].
    destruct (findIndex _ entry) as [fi|]; [|by rewrite He].
    case_bool_decide as Hl.
    + rewrite lookup_delete_eq. simpl. symmetry. by apply length_zero_iff_nil.
    + by rewrite lookup_insert_eq.
  - destruct (bm !! id res) as [entry|] eqn:He; simpl; [|done].
    destruct (findIndex _ entry) as [fi|]; [|done].
    case_bool_decide.
    + by rewrite lookup_delete_ne.
    + by rewrite lookup_insert_ne.
Qed.

Lemma remove_old_view_no_empty key bm res :
  no_empty_bucket bm → no_empty_bucket (remove_old_view key bm res).
Proof.
  intros Hbm i b. unfold remove_old_view.
  destruct (bm !! id res) as [entry|] eqn:He; [|apply Hbm].
  destruct (findIndex _ entry) as [fi|]; [|apply Hbm].
  case_bool_decide as Hl.
  - intros [_ Hb]%lookup_delete_Some. eauto.
  - intros [[_ <-]|[_ Hb]]%lookup_insert_Some; [|eauto].
    intros Hnil. by rewrite Hnil in Hl.
Qed.

Lemma foldl_remove_old_view key bm old :
  no_empty_bucket bm →
  no_empty_bucket (foldl (remove_old_view key) bm old) ∧
  ∀ i, bucket (foldl (remove_old_view key) bm old) i
       = remove_olds key i (bucket bm i) old.
Proof.
  unfold remove_olds. revert bm. induction old as [|res old IH]; intros bm Hbm; [done|].
  simpl. destruct (IH _ (remove_old_view_no_empty key bm res Hbm)) as [Hne Hb].
  split; [done|]. intros i. by rewrite Hb, remove_old_view_bucket.
Qed.

Definition tag (u : Uri) (res : WalkerResult) : WalkerByIdResult :=
  {| result := res; file := u |}.

Lemma add_new_view_bucket u bm res i :
  bucket (add_new_view u bm res) i
  = if decide (id res = i) then bucket bm i ++ [tag u res] else bucket bm i.
Proof.
  unfold add_new_view, bucket. destruct (decide (id res = i)) as [<-|Hne].
  - by rewrite lookup_insert_eq.
  - by rewrite lookup_insert_ne.
Qed.

Lemma add_new_view_no_empty u bm res :
  no_empty_bucket bm → no_empty_bucket (add_new_view u bm res).
Proof.
  intros Hbm i b. unfold add_new_view.
  intros [[_ <-]|[_ Hb]]%lookup_insert_Some; [|eauto].
  by destruct (default [] (bm !! id res)).
Qed.

Lemma foldl_add_new_view u bm results :
  no_empty_bucket bm →
  no_empty_bucket (foldl (add_new_view u) bm results) ∧
  ∀ i, bucket (foldl (add_new_view u) bm results) i
       = bucket bm i ++ (tag u <$> filter (λ res, id res = i) results).
Proof.
  revert bm. induction results as [|res results IH]; intros bm Hbm.
  - split; [done|]. intros i. simpl. by rewrite app_nil_r.
  - simpl. destruct (IH _ (add_new_view_no_empty u bm res Hbm)) as [Hne Hb].
    split; [done|]. intros i. rewrite Hb, add_new_view_bucket.
    destruct (decide (id res = i)) as [He|He].
    + rewrite filter_cons_True by done. by rewrite <- app_assoc.
    + by rewrite filter_cons_False.
Qed.

(** ** The two views as indexes of one set of occurrences *)

(** The contents of the new by-identifier map of a save of the document at
    [u], whose old registry is [old] and whose fresh results are [results]. *)
Definition save_view (u : Uri) (bm : gmap string (list WalkerByIdResult))
    (old results : list WalkerResult) : gmap string (list WalkerByIdResult) :=
  foldl (add_new_view u) (foldl (remove_old_view (toString u)) bm old) results.

(** No bucket is empty, a bucket holds records of its identifier only, and
    the records a bucket has of a document are, in order, the occurrences of
    the bucket's identifier in the document. *)
Definition consistent (bf : gmap string (list WalkerResult))
    (bm : gmap string (list WalkerByIdResult)) : Prop :=
  no_empty_bucket bm ∧
  (∀ i r, r ∈ bucket bm i → id (result r) = i) ∧
  (∀ D i, result <$> filter (tagged D) (bucket bm i)
          = filter (λ O, id O = i) (default [] (bf !! D))).

Lemma filter_tagged_not_same key (b : list WalkerByIdResult) :
  filter (tagged key) (filter (λ c, ¬ tagged key c) b) = [].
Proof.
  induction b as [|x b IH]; [done|]. destruct (decide (tagged key x)).
  - rewrite (filter_cons_False (λ c, ¬ tagged key c)); [done|tauto].
  - rewrite (filter_cons_True (λ c, ¬ tagged key c)) by done.
    by rewrite filter_cons_False.
Qed.

Lemma filter_tagged_not_other D key (b : list WalkerByIdResult) :
  D ≠ key →
  filter (tagged D) (filter (λ c, ¬ tagged key c) b) = filter (tagged D) b.
Proof.
  intros Hne. induction b as [|x b IH]; [done|]. destruct (decide (tagged key x)) as [Hk|Hk].
  - rewrite (filter_cons_False (λ c, ¬ tagged key c)) by tauto.
    rewrite (filter_cons_False (tagged D)); [done|]. unfold tagged in *. congruence.
  - rewrite (filter_cons_True (λ c, ¬ tagged key c)) by done.
    destruct (decide (tagged D x)).
    + rewrite !filter_cons_True by done. by f_equal.
    + by rewrite !filter_cons_False.
Qed.

Lemma filter_not_tagged_twice key (b : list WalkerByIdResult) :
  filter (λ c, ¬ tagged key c) (filter (λ c, ¬ tagged key c) b)
  = filter (λ c, ¬ tagged key c) b.
Proof.
  induction b as [|x b IH]; [done|]. destruct (decide (tagged key x)).
  - by rewrite (filter_cons_False (λ c, ¬ tagged key c)) by tauto.
  - rewrite !(filter_cons_True (λ c, ¬ tagged key c)) by done. by f_equal.
Qed.

Lemma filter_tagged_tag_same u (l : list WalkerResult) :
  filter (tagged (toString u)) (tag u <$> l) = tag u <$> l.
Proof.
  induction l as [|x l IH]; [done|]. rewrite fmap_cons, filter_cons_True by done.
  by f_equal.
Qed.

Lemma filter_tagged_tag_other D u (l : list WalkerResult) :
  D ≠ toString u → filter (tagged D) (tag u <$> l) = [].
Proof.
  intros Hne. induction l as [|x l IH]; [done|].
  rewrite fmap_cons, filter_cons_False; [done|]. unfold tagged. simpl. congruence.
Qed.

Lemma filter_not_tagged_tag u (l : list WalkerResult) :
  filter (λ c, ¬ tagged (toString u) c) (tag u <$> l) = [].
Proof.
  induction l as [|x l IH]; [done|].
  rewrite fmap_cons, filter_cons_False; [done|]. unfold tagged. simpl. tauto.
Qed.

Lemma result_tag u (l : list WalkerResult) : result <$> (tag u <$> l) = l.
Proof. induction l as [|x l IH]; [done|]. rewrite !fmap_cons. by f_equal. Qed.

Lemma save_view_no_empty u bm old results :
  no_empty_bucket bm → no_empty_bucket (save_view u bm old results).
Proof.
  intros Hbm. unfold save_view.
  by apply foldl_add_new_view, foldl_remove_old_view.
Qed.

Lemma save_view_bucket u bf bm results i :
  consistent bf bm →
  bucket (save_view u bm (default [] (bf !! toString u)) results) i
  = filter (λ c, ¬ tagged (toString u) c) (bucket bm i)
    ++ (tag u <$> filter (λ res, id res = i) results).
Proof.
  intros (Hne & _ & Hcor). unfold save_view.
  destruct (foldl_remove_old_view (toString u) bm (default [] (bf !! toString u)) Hne)
    as [Hne' Hrem].
  destruct (foldl_add_new_view u _ results Hne') as [_ Hadd].
  rewrite Hadd, Hrem. f_equal. apply remove_olds_all.
  rewrite <- (Hcor (toString u) i). by rewrite length_fmap.
Qed.

Lemma save_view_consistent u bf bm results :
  consistent bf bm →
  consistent (<[toString u := results]> bf)
    (save_view u bm (default [] (bf !! toString u)) results).
Proof.
  intros Hc. pose proof Hc as (Hne & Hid & Hcor).
  split; [by apply save_view_no_empty|]. split.
  - intros i r. rewrite (save_view_bucket u bf bm results i Hc).
    intros [[_ Hr]%list_elem_of_filter|Hr]%elem_of_app; [eauto|].
    apply list_elem_of_fmap in Hr as (res & -> & [Hres _]%list_elem_of_filter). done.
  - intros D i. rewrite (save_view_bucket u bf bm results i Hc), filter_app, fmap_app.
    destruct (decide (D = toString u)) as [->|Hne'].
    + rewrite filter_tagged_not_same, filter_tagged_tag_same, result_tag.
      by rewrite lookup_insert_eq.
    + rewrite filter_tagged_not_other, filter_tagged_tag_other by done.
      rewrite lookup_insert_ne by done. rewrite app_nil_r. apply Hcor.
Qed.

Lemma consistent_empty : consistent ∅ ∅.
Proof.
  split; [intros i b; by rewrite lookup_empty|]. split.
  - intros i r. unfold bucket. rewrite lookup_empty. simpl. by intros ?%elem_of_nil.
  - intros D i. unfold bucket. by rewrite !lookup_empty.
Qed.

(** The maps of a save, read through the store. *)
Lemma save_maps_sim document bf m h :
  wf_store h m →
  (save_maps document bf m h).1
  = <[toString (uri document) := getI18nResultsForFile document]> bf ∧
  wf_st (save_maps document bf m h).2 ∧
  view_of (save_maps document bf m h).2
  = save_view (uri document) (view h m)
      (default [] (bf !! toString (uri document))) (getI18nResultsForFile document).
Proof.
  intros Hwf. unfold save_maps. simpl. split; [done|].
  destruct (foldl_remove_old_sim (toString (uri document)) (m, h)
              (default [] (bf !! toString (uri document))) Hwf) as [Hwf1 Hv1].
  destruct (foldl_add_new_sim (uri document) _ (getI18nResultsForFile document) Hwf1)
    as [Hwf2 Hv2].
  split; [done|]. unfold save_view. by rewrite Hv2, Hv1.
Qed.

(** ** States of the scanner *)

Arguments save_maps : simpl never.
Arguments save_view : simpl never.

Definition scanner_inv (s : WorkspaceScanner) : Prop :=
  ∃ bf m, _resultsByFile s = Some bf ∧ _resultsById s = Some m ∧
          wf_store (arrays s) m ∧ consistent bf (view (arrays s) m).

Definition eligible (document : TextDocument) : Prop :=
  endsWith (path (uri document)) ".html" = true.

Lemma onDocumentSave_ineligible document s :
  ¬ eligible document → onDocumentSave document s = s.
Proof.
  unfold eligible, onDocumentSave. by destruct (endsWith _ _).
Qed.

Lemma onDocumentSave_eligible document s bf m :
  eligible document → _resultsByFile s = Some bf → _resultsById s = Some m →
  onDocumentSave document s
  = next_byId (save_maps document bf m (arrays s)).2.1
      (next_byFile (save_maps document bf m (arrays s)).1
         (with_arrays (save_maps document bf m (arrays s)).2.2 s)).
Proof.
  unfold eligible, onDocumentSave. intros -> -> ->.
  change (negb true) with false. cbv iota.
  by destruct (save_maps document bf m (arrays s)) as [nf [nm h]].
Qed.

Lemma onDocumentSave_views document s bf m :
  eligible document → _resultsByFile s = Some bf → _resultsById s = Some m →
  wf_store (arrays s) m →
  byFile_view (onDocumentSave document s)
  = <[toString (uri document) := getI18nResultsForFile document]> bf ∧
  byId_view (onDocumentSave document s)
  = save_view (uri document) (view (arrays s) m)
      (default [] (bf !! toString (uri document))) (getI18nResultsForFile document).
Proof.
  intros He Hbf Hm Hwf. rewrite (onDocumentSave_eligible _ _ _ _ He Hbf Hm).
  destruct (save_maps_sim document bf m (arrays s) Hwf) as (H1 & _ & H3).
  split; [exact H1|exact H3].
Qed.

Lemma onDocumentSave_inv document s :
  scanner_inv s → scanner_inv (onDocumentSave document s).
Proof.
  intros (bf & m & Hbf & Hm & Hwf & Hc).
  destruct (decide (eligible document)) as [He|He];
    [|rewrite onDocumentSave_ineligible by done; by exists bf, m].
  rewrite (onDocumentSave_eligible _ _ _ _ He Hbf Hm).
  destruct (save_maps_sim document bf m (arrays s) Hwf) as (H1 & H2 & H3).
  exists (save_maps document bf m (arrays s)).1, (save_maps document bf m (arrays s)).2.1.
  split; [done|]. split; [done|]. split; [exact H2|].
  change (consistent (save_maps document bf m (arrays s)).1
            (view_of (save_maps document bf m (arrays s)).2)).
  rewrite H3, H1. by apply save_view_consistent.
Qed.

(** A document the scan has not seen yet is scanned as it would be saved. *)
Lemma scan_document_save st document :
  st.1 !! toString (uri document) = None →
  scan_document st document
  = if bool_decide (0 < length (getI18nResultsForFile document))
    then save_maps document st.1 st.2.1 st.2.2 else st.
Proof.
  intros Hk. unfold scan_document, save_maps. rewrite Hk. simpl.
  by destruct st as [bf [m h]].
Qed.

Definition keys (documents : list TextDocument) : list string :=
  (λ d, toString (uri d)) <$> documents.

Lemma foldl_scan_document documents st :
  NoDup (keys documents) →
  (∀ d, d ∈ documents → st.1 !! toString (uri d) = None) →
  wf_st st.2 → consistent st.1 (view_of st.2) →
  (∀ k v, st.1 !! k = Some v → v ≠ []) →
  wf_st (foldl scan_document st documents).2 ∧
  consistent (foldl scan_document st documents).1
    (view_of (foldl scan_document st documents).2) ∧
  (∀ k v, (foldl scan_document st documents).1 !! k = Some v → v ≠ []).
Proof.
  revert st. induction documents as [|d documents IH]; intros st Hnd Hnew Hwf Hc Hv;
    [done|].
  simpl. apply NoDup_cons in Hnd as [Hd Hnd].
  rewrite scan_document_save by (apply Hnew; left).
  case_bool_decide as Hlen.
  - destruct st as [bf [m h]]. cbn [fst snd] in *.
    destruct (save_maps_sim d bf m h Hwf) as (H1 & H2 & H3).
    apply IH; try done.
    + intros d' Hd'. rewrite H1, lookup_insert_ne; [apply Hnew; by right|].
      intros Heq. apply Hd. rewrite Heq. unfold keys.
      apply list_elem_of_fmap. by exists d'.
    + rewrite H1, H3. by apply save_view_consistent.
    + rewrite H1. intros k v [[_ <-]|[_ Hk]]%lookup_insert_Some; [|eauto].
      intros Hnil. rewrite Hnil in Hlen. simpl in Hlen. lia.
  - apply IH; try done. intros d' Hd'. apply Hnew. by right.
Qed.

Definition scanned (outcomes : list ScanOutcome) : Prop :=
  NoDup (keys (omap fulfilled outcomes)) ∧ omap rejected outcomes = [].

Lemma initialize_new outcomes :
  omap rejected outcomes = [] →
  initialize outcomes new_scanner
  = let st := foldl scan_document (∅, (∅, [])) (omap fulfilled outcomes) in
    log (Log "[i18n-manager] initialized i18n repository")
      (next_byId st.2.1
         (next_byFile st.1
            (with_state initialized
               (with_arrays st.2.2
                  (with_state initializing
                     (log (Log "[i18n-manager] initializing i18n repository")
                        new_scanner)))))).
Proof.
  intros Hr. unfold initialize, scan_settled. simpl. rewrite Hr.
  by destruct (foldl scan_document _ _) as [bf [m h]].
Qed.

Lemma initialize_inv outcomes :
  scanned outcomes →
  scanner_inv (initialize outcomes new_scanner) ∧
  ∀ k v, byFile_view (initialize outcomes new_scanner) !! k = Some v → v ≠ [].
Proof.
  intros [Hnd Hr]. rewrite (initialize_new _ Hr).
  destruct (foldl_scan_document (omap fulfilled outcomes) (∅, (∅, [])) Hnd)
    as (Hwf & Hc & Hv).
  - intros d _. apply lookup_empty.
  - split; simpl; [intros k l; by rewrite lookup_empty|].
    intros k1 k2 l. by rewrite lookup_empty.
  - apply consistent_empty.
  - simpl. intros k v. by rewrite lookup_empty.
  - split; [|exact Hv]. eexists _, _. split; [done|]. split; [done|]. done.
Qed.

(** The states after the initial scan and after every save. *)
Inductive reachable : WorkspaceScanner → Prop :=
  | reachable_scan outcomes :
      scanned outcomes → reachable (initialize outcomes new_scanner)
  | reachable_save document s :
      reachable s → reachable (onDocumentSave document s).

Lemma reachable_inv s : reachable s → scanner_inv s.
Proof.
  induction 1 as [outcomes Hs|document s _ IH].
  - by apply initialize_inv.
  - by apply onDocumentSave_inv.
Qed.

(** ** A small corpus *)

Definition wr (i v : string) (n : nat) : WalkerResult :=
  {| id := i; value := Some v; state := Success; error := None; location := n |}.

Definition doc (f text : string) (rs : list WalkerResult) : TextDocument :=
  {| uri := {| path := f; toString := "file://" +:+ f |};
     getText := text; geti18nAttributes := rs |}.

Definition corpus : list ScanOutcome :=
  [Fulfilled (doc "/a.html" "<p i18n>" [wr "welcome" "Hello {{name}}" 1]);
   Fulfilled (doc "/b.html" "<b i18n>" [wr "welcome" "Hello {{other}}" 1;
                                        wr "bye" "Bye" 2])].

Definition scanned_corpus : WorkspaceScanner := initialize corpus new_scanner.

Definition b_edited : TextDocument :=
  doc "/b.html" "<i i18n>" [wr "welcome" "Hi {{other}}" 1].

Definition b_emptied : TextDocument := doc "/b.html" "" [].

Lemma corpus_scanned : scanned corpus.
Proof. split; [|reflexivity]. apply (bool_decide_unpack _). vm_compute. exact I. Defined.

Lemma scanned_corpus_reachable : reachable scanned_corpus.
Proof. apply reachable_scan, corpus_scanned. Defined.

Example scanned_corpus_validated :
  validatedResultsById (byId_view scanned_corpus) !! "welcome"
  = Some [tag (uri (doc "/a.html" "" [])) (wr "welcome" "Hello {{name}}" 1);
          tag (uri b_edited) (wr "welcome" "Hello {{other}}" 1)].
Proof. vm_compute. reflexivity. Qed.

Example edited_corpus_validated :
  validatedResultsById (byId_view (onDocumentSave b_edited scanned_corpus)) !! "welcome"
  = Some (map (set_state Error mismatch_message)
            [tag (uri (doc "/a.html" "" [])) (wr "welcome" "Hello {{name}}" 1);
             tag (uri b_edited) (wr "welcome" "Hi {{other}}" 1)]).
Proof. vm_compute. reflexivity. Qed.

(** ** The two views after a scan and after saves *)

Definition occurrences (s : WorkspaceScanner) (D : string) : list WalkerResult :=
  default [] (byFile_view s !! D).

Lemma filter_result_tagged D O (b : list WalkerByIdResult) :
  length (filter (λ r, result r = O ∧ tagged D r) b)
  = length (filter (λ O', O' = O) (result <$> filter (tagged D) b)).
Proof.
  induction b as [|x b IH]; [done|].
  destruct (decide (tagged D x)) as [Ht|Ht].
  - rewrite (filter_cons_True (tagged D)) by done. rewrite fmap_cons.
    destruct (decide (result x = O)) as [Hr|Hr].
    + rewrite !filter_cons_True by done. simpl. by f_equal.
    + rewrite !filter_cons_False by tauto. done.
  - rewrite (filter_cons_False (tagged D)) by done.
    rewrite filter_cons_False by tauto. done.
Qed.

Lemma filter_same_id O (l : list WalkerResult) :
  filter (λ O', O' = O) (filter (λ O', id O' = id O) l) = filter (λ O', O' = O) l.
Proof.
  induction l as [|x l IH]; [done|].
  destruct (decide (x = O)) as [->|Hx].
  - rewrite (filter_cons_True (λ O', id O' = id O)) by done.
    rewrite !filter_cons_True by done. by f_equal.
  - rewrite (filter_cons_False (λ O', O' = O) x l) by done.
    destruct (decide (id x = id O)).
    + rewrite (filter_cons_True (λ O', id O' = id O)) by done.
      by rewrite filter_cons_False.
    + by rewrite (filter_cons_False (λ O', id O' = id O)).
Qed.

(** C2. After the initial scan and after every save, the records a bucket
    has of a document are, in order, the occurrences of the bucket's
    identifier in the document: an occurrence is in the by-file view under
    [D] exactly when its record tagged with [D] is in the bucket of its
    identifier, as many times there as here (once for an occurrence that is
    in the document once), and a bucket holds nothing else. *)
Theorem views_index_one_set (s : WorkspaceScanner) (D : string) (O : WalkerResult) :
  reachable s →
  (O ∈ occurrences s D ↔
   ∃ r, r ∈ bucket (byId_view s) (id O) ∧ result r = O ∧ tagged D r) ∧
  length (filter (λ r, result r = O ∧ tagged D r) (bucket (byId_view s) (id O)))
  = length (filter (λ O', O' = O) (occurrences s D)) ∧
  (∀ i, result <$> filter (tagged D) (bucket (byId_view s) i)
        = filter (λ O', id O' = i) (occurrences s D)) ∧
  (∀ i r, r ∈ bucket (byId_view s) i →
          id (result r) = i ∧ result r ∈ occurrences s (toString (file r))).
Proof.
  intros (bf & m & Hbf & Hm & Hwf & Hne & Hid & Hcor)%reachable_inv.
  unfold occurrences, byFile_view, byId_view. rewrite Hbf, Hm. simpl.
  split; [|split; [|split]].
  - split.
    + intros HO.
      assert (HO' : O ∈ result <$> filter (tagged D) (bucket (view (arrays s) m) (id O))).
      { rewrite Hcor. by apply list_elem_of_filter. }
      apply list_elem_of_fmap in HO' as (r & -> & [Ht Hr]%list_elem_of_filter).
      by exists r.
    + intros (r & Hr & <- & Ht).
      assert (HO' : result r ∈ result <$> filter (tagged D)
                      (bucket (view (arrays s) m) (id (result r)))).
      { apply list_elem_of_fmap. exists r. split; [done|]. by apply list_elem_of_filter. }
      rewrite Hcor in HO'. by apply list_elem_of_filter in HO' as [_ ?].
  - by rewrite filter_result_tagged, Hcor, filter_same_id.
  - apply Hcor.
  - intros i r Hr. split; [by apply Hid|].
    assert (HO' : result r ∈ result <$> filter (tagged (toString (file r)))
                    (bucket (view (arrays s) m) i)).
    { apply list_elem_of_fmap. exists r. split; [done|]. by apply list_elem_of_filter. }
    rewrite Hcor in HO'. by apply list_elem_of_filter in HO' as [_ ?].
Qed.

Lemma views_index_one_set_witness :
  reachable (onDocumentSave b_edited scanned_corpus) ∧
  length (filter (λ r, result r = wr "welcome" "Hi {{other}}" 1
                       ∧ tagged "file:///b.html" r)
            (bucket (byId_view (onDocumentSave b_edited scanned_corpus)) "welcome"))
  = length (filter (λ O', O' = wr "welcome" "Hi {{other}}" 1)
              (occurrences (onDocumentSave b_edited scanned_corpus) "file:///b.html")).
Proof.
  assert (H : reachable (onDocumentSave b_edited scanned_corpus))
    by apply reachable_save, scanned_corpus_reachable.
  split; [exact H|].
  exact (proj1 (proj2 (views_index_one_set _ "file:///b.html"
                         (wr "welcome" "Hi {{other}}" 1) H))).
Defined.

Lemma save_view_twice u bf bm results :
  consistent bf bm →
  save_view u
    (save_view u bm (default [] (bf !! toString u)) results)
    (default [] (<[toString u := results]> bf !! toString u)) results
  = save_view u bm (default [] (bf !! toString u)) results.
Proof.
  intros Hc. pose proof (save_view_consistent u bf bm results Hc) as Hc'.
  apply bucket_ext.
  - apply save_view_no_empty, Hc'.
  - apply Hc'.
  - intros i. rewrite (save_view_bucket u _ _ results i Hc').
    rewrite (save_view_bucket u bf bm results i Hc).
    rewrite filter_app, filter_not_tagged_twice, filter_not_tagged_tag.
    by rewrite app_nil_r.
Qed.

(** C8. Saving a document twice with the same extracted occurrences gives
    by-file and by-identifier views with the same contents as saving it
    once. *)
Theorem save_twice_same_contents (s : WorkspaceScanner) (document : TextDocument) :
  reachable s →
  byFile_view (onDocumentSave document (onDocumentSave document s))
  = byFile_view (onDocumentSave document s) ∧
  byId_view (onDocumentSave document (onDocumentSave document s))
  = byId_view (onDocumentSave document s).
Proof.
  intros Hs.
  destruct (decide (eligible document)) as [He|He];
    [|by rewrite !onDocumentSave_ineligible].
  pose proof (reachable_inv _ Hs) as (bf & m & Hbf & Hm & Hwf & Hc).
  pose proof (reachable_inv _ (reachable_save document s Hs))
    as (bf1 & m1 & Hbf1 & Hm1 & Hwf1 & Hc1).
  destruct (onDocumentSave_views _ _ _ _ He Hbf Hm Hwf) as [Hf1 Hi1].
  destruct (onDocumentSave_views _ _ _ _ He Hbf1 Hm1 Hwf1) as [Hf2 Hi2].
  assert (Ebf : bf1 = <[toString (uri document) := getI18nResultsForFile document]> bf).
  { rewrite <- Hf1. unfold byFile_view. by rewrite Hbf1. }
  assert (Ebm : view (arrays (onDocumentSave document s)) m1
                = save_view (uri document) (view (arrays s) m)
                    (default [] (bf !! toString (uri document)))
                    (getI18nResultsForFile document)).
  { rewrite <- Hi1. unfold byId_view. by rewrite Hm1. }
  rewrite Hf2, Hi2, Hf1, Hi1, Ebm, Ebf. split.
  - apply insert_insert_eq.
  - by apply save_view_twice.
Qed.

Lemma save_twice_same_contents_witness :
  reachable scanned_corpus ∧
  byId_view (onDocumentSave b_edited (onDocumentSave b_edited scanned_corpus))
  = byId_view (onDocumentSave b_edited scanned_corpus).
Proof.
  split; [exact scanned_corpus_reachable|].
  exact (proj2 (save_twice_same_contents _ b_edited scanned_corpus_reachable)).
Defined.

(** C3. After a scan no key of the by-file view maps to an empty sequence;
    but a save whose extraction is empty leaves the document in the by-file
    view, with the empty sequence, instead of removing its key. *)
Theorem save_stores_empty_sequence (outcomes : list ScanOutcome)
    (s : WorkspaceScanner) (document : TextDocument) :
  scanned outcomes → reachable s → eligible document →
  getI18nResultsForFile document = [] →
  (∀ k v, byFile_view (initialize outcomes new_scanner) !! k = Some v → v ≠ []) ∧
  byFile_view (onDocumentSave document s) !! toString (uri document) = Some [].
Proof.
  intros Hsc Hs He Hr. split; [by apply initialize_inv|].
  pose proof (reachable_inv _ Hs) as (bf & m & Hbf & Hm & Hwf & Hc).
  destruct (onDocumentSave_views _ _ _ _ He Hbf Hm Hwf) as [-> _].
  by rewrite Hr, lookup_insert_eq.
Qed.

Lemma save_stores_empty_sequence_witness :
  scanned corpus ∧ reachable scanned_corpus ∧ eligible b_emptied ∧
  getI18nResultsForFile b_emptied = [] ∧
  byFile_view (onDocumentSave b_emptied scanned_corpus) !! "file:///b.html" = Some [].
Proof.
  assert (He : eligible b_emptied) by reflexivity.
  assert (Hr : getI18nResultsForFile b_emptied = []) by reflexivity.
  split; [exact corpus_scanned|]. split; [exact scanned_corpus_reachable|].
  split; [exact He|]. split; [exact Hr|].
  exact (proj2 (save_stores_empty_sequence corpus scanned_corpus b_emptied
                  corpus_scanned scanned_corpus_reachable He Hr)).
Defined.

(** ** What a save publishes and what it writes to *)

(** A consumer that keeps the latest map of each subject, as the scanner
    itself does in lines 66 and 67: the pairs it holds after each [next]. *)
Definition observe
    (seen : option (gmap string (list WalkerResult)) * option (gmap string loc))
    (e : Emission)
  : option (gmap string (list WalkerResult)) * option (gmap string loc) :=
  match e with
  | ByFile m => (Some m, seen.2)
  | ById m => (seen.1, Some m)
  end.

Fixpoint observations
    (seen : option (gmap string (list WalkerResult)) * option (gmap string loc))
    (es : list Emission)
  : list (option (gmap string (list WalkerResult)) * option (gmap string loc)) :=
  match es with
  | [] => []
  | e :: es' => observe seen e :: observations (observe seen e) es'
  end.

Lemma remove_old_frame key st res k l :
  wf_st st → st.1 !! k = Some l → k ≠ id res →
  (remove_old key st res).1 !! k = Some l ∧
  (remove_old key st res).2 !! l = st.2 !! l.
Proof.
  destruct st as [m h]. unfold wf_st. simpl. intros [Hdom Hinj] Hk Hne.
  destruct (m !! id res) as [l'|] eqn:Hr; [|done].
  destruct (findIndex _ _) as [fi|]; [|done].
  assert (l' ≠ l) by (intros ->; apply Hne; eauto).
  case_bool_decide; simpl.
  - rewrite lookup_delete_ne by done. by rewrite list_lookup_insert_ne.
  - by rewrite list_lookup_insert_ne.
Qed.

Lemma add_new_frame u st res k l :
  wf_st st → st.1 !! k = Some l → k ≠ id res →
  (add_new u st res).1 !! k = Some l ∧
  (add_new u st res).2 !! l = st.2 !! l.
Proof.
  destruct st as [m h]. unfold wf_st. simpl. intros [Hdom Hinj] Hk Hne.
  destruct (m !! id res) as [l'|] eqn:Hr; simpl.
  - assert (l' ≠ l) by (intros ->; apply Hne; eauto).
    by rewrite list_lookup_insert_ne.
  - rewrite lookup_insert_ne by done. split; [done|].
    apply lookup_app_l. eauto.
Qed.

Lemma foldl_remove_old_frame key st old k l :
  wf_st st → st.1 !! k = Some l → k ∉ id <$> old →
  (foldl (remove_old key) st old).1 !! k = Some l ∧
  (foldl (remove_old key) st old).2 !! l = st.2 !! l.
Proof.
  revert st. induction old as [|res old IH]; intros st Hwf Hk Hno; [done|].
  rewrite fmap_cons in Hno. apply not_elem_of_cons in Hno as [Hne Hno]. simpl.
  destruct (remove_old_frame key st res k l Hwf Hk Hne) as [Hk' <-].
  apply IH; [by apply remove_old_sim|done..].
Qed.

Lemma foldl_add_new_frame u st results k l :
  wf_st st → st.1 !! k = Some l → k ∉ id <$> results →
  (foldl (add_new u) st results).1 !! k = Some l ∧
  (foldl (add_new u) st results).2 !! l = st.2 !! l.
Proof.
  revert st. induction results as [|res results IH]; intros st Hwf Hk Hno; [done|].
  rewrite fmap_cons in Hno. apply not_elem_of_cons in Hno as [Hne Hno]. simpl.
  destruct (add_new_frame u st res k l Hwf Hk Hne) as [Hk' <-].
  apply IH; [by apply add_new_sim|done..].
Qed.

Lemma foldl_remove_old_length key st old :
  length (foldl (remove_old key) st old).2 = length st.2.
Proof.
  revert st. induction old as [|res old IH]; intros st; [done|]. simpl.
  rewrite IH. destruct st as [m h]. simpl.
  destruct (m !! id res); [|done]. destruct (findIndex _ _); [|done].
  case_bool_decide; simpl; by rewrite length_insert.
Qed.

Lemma foldl_add_new_length u st results :
  length st.2 ≤ length (foldl (add_new u) st results).2.
Proof.
  revert st. induction results as [|res results IH]; intros st; [done|]. simpl.
  etransitivity; [|apply IH]. destruct st as [m h]. simpl.
  destruct (m !! id res); simpl; [by rewrite length_insert|].
  rewrite length_app. simpl. lia.
Qed.

(** C7, as stated, fails at the save of the edited [b.html]: the arrays of
    the buckets "welcome" and "bye" of the previously published
    by-identifier map have other contents after the save, and between the two
    emissions the new by-file map stands beside the previous by-identifier
    map. *)
Lemma save_writes_to_published_arrays :
  let s := scanned_corpus in
  let s' := onDocumentSave b_edited s in
  let bi := default ∅ (_resultsById s) in
  let bi' := default ∅ (_resultsById s') in
  view (arrays s) bi !! "welcome"
  = Some [tag (uri (doc "/a.html" "" [])) (wr "welcome" "Hello {{name}}" 1);
          tag (uri b_edited) (wr "welcome" "Hello {{other}}" 1)] ∧
  view (arrays s') bi !! "welcome"
  = Some [tag (uri (doc "/a.html" "" [])) (wr "welcome" "Hello {{name}}" 1);
          tag (uri b_edited) (wr "welcome" "Hi {{other}}" 1)] ∧
  view (arrays s) bi !! "bye" = Some [tag (uri b_edited) (wr "bye" "Bye" 2)] ∧
  view (arrays s') bi !! "bye" = Some [] ∧
  emitted s' = emitted s ++ [ByFile (byFile_view s'); ById bi'] ∧
  observations (_resultsByFile s, _resultsById s) [ByFile (byFile_view s'); ById bi']
  = [(_resultsByFile s', _resultsById s); (_resultsByFile s', _resultsById s')] ∧
  byFile_view s !! "file:///b.html" ≠ byFile_view s' !! "file:///b.html" ∧
  bi !! "bye" ≠ bi' !! "bye".
Proof.
  split; [vm_compute; reflexivity|]. split; [vm_compute; reflexivity|].
  split; [vm_compute; reflexivity|]. split; [vm_compute; reflexivity|].
  split; [vm_compute; reflexivity|]. split; [vm_compute; reflexivity|].
  split; vm_compute; discriminate.
Qed.

(** C7, amended. A save builds the new maps from copies of the published
    maps and gives them to the two subjects in two consecutive emissions, the
    by-file map first; the published by-identifier map keeps its bindings,
    the arrays of the identifiers that occur neither in the old registry of
    the document nor in its fresh results keep their contents, and a consumer
    that holds the latest map of each subject has the new by-file map with
    the previous by-identifier map after the first emission and the two new
    maps after the second. *)
Theorem save_publishes_two_copies (s : WorkspaceScanner) (document : TextDocument)
    (bf : gmap string (list WalkerResult)) (bi : gmap string loc) :
  reachable s → eligible document →
  _resultsByFile s = Some bf → _resultsById s = Some bi →
  ∃ bf' bi',
    bf' = <[toString (uri document) := getI18nResultsForFile document]> bf ∧
    emitted (onDocumentSave document s) = emitted s ++ [ByFile bf'; ById bi'] ∧
    _resultsByFile (onDocumentSave document s) = Some bf' ∧
    _resultsById (onDocumentSave document s) = Some bi' ∧
    observations (Some bf, Some bi) [ByFile bf'; ById bi']
    = [(Some bf', Some bi); (Some bf', Some bi')] ∧
    length (arrays s) ≤ length (arrays (onDocumentSave document s)) ∧
    ∀ k l, bi !! k = Some l →
           k ∉ id <$> (default [] (bf !! toString (uri document))
                       ++ getI18nResultsForFile document) →
           bi' !! k = Some l ∧
           arrays (onDocumentSave document s) !! l = arrays s !! l.
Proof.
  intros Hs He Hbf Hbi.
  pose proof (reachable_inv _ Hs) as (bf0 & m0 & Hbf0 & Hm0 & Hwf & Hc).
  rewrite Hbf in Hbf0. rewrite Hbi in Hm0. injection Hbf0 as <-. injection Hm0 as <-.
  rewrite (onDocumentSave_eligible _ _ _ _ He Hbf Hbi).
  destruct (save_maps_sim document bf bi (arrays s) Hwf) as (H1 & H2 & H3).
  exists (save_maps document bf bi (arrays s)).1, (save_maps document bf bi (arrays s)).2.1.
  split; [done|].
  split; [cbn [emitted next_byId next_byFile with_arrays]; by rewrite <- app_assoc|].
  split; [done|]. split; [done|]. split; [done|].
  cbn [arrays next_byId next_byFile with_arrays].
  assert (Hframe : ∀ k l, bi !! k = Some l →
            k ∉ id <$> (default [] (bf !! toString (uri document))
                        ++ getI18nResultsForFile document) →
            (save_maps document bf bi (arrays s)).2.1 !! k = Some l ∧
            (save_maps document bf bi (arrays s)).2.2 !! l = arrays s !! l).
  { intros k l Hk Hno. rewrite fmap_app in Hno.
    apply not_elem_of_app in Hno as [Hold Hnew].
    unfold save_maps. cbn [fst snd].
    destruct (foldl_remove_old_frame (toString (uri document)) (bi, arrays s)
                _ k l Hwf Hk Hold) as [Hk1 Hl1].
    destruct (foldl_add_new_frame (uri document) _ _ k l
                (proj1 (foldl_remove_old_sim _ (bi, arrays s) _ Hwf)) Hk1 Hnew)
      as [Hk2 Hl2].
    split; [done|]. by rewrite Hl2, Hl1. }
  split; [|exact Hframe].
  unfold save_maps. cbn [fst snd].
  etransitivity; [|apply foldl_add_new_length].
  by rewrite foldl_remove_old_length.
Qed.

Lemma save_publishes_two_copies_witness :
  reachable scanned_corpus ∧ eligible b_edited ∧
  ∃ bf bi bf' bi',
    _resultsByFile scanned_corpus = Some bf ∧ _resultsById scanned_corpus = Some bi ∧
    emitted (onDocumentSave b_edited scanned_corpus)
    = emitted scanned_corpus ++ [ByFile bf'; ById bi'].
Proof.
  split; [exact scanned_corpus_reachable|].
  assert (He : eligible b_edited) by reflexivity.
  split; [exact He|].
  destruct (save_publishes_two_copies scanned_corpus b_edited _ _
              scanned_corpus_reachable He eq_refl eq_refl)
    as (bf' & bi' & _ & Hem & _).
  eexists _, _, bf', bi'. split; [reflexivity|]. split; [reflexivity|]. exact Hem.
Defined.

(** ** A scan that fails *)

Definition failing_scan : list ScanOutcome :=
  [Fulfilled (doc "/a.html" "<p i18n>" [wr "welcome" "Hello {{name}}" 1]);
   Rejected {| path := "/b.html"; toString := "file:///b.html" |} "cannot open"].

(** C6, as stated, fails: after a scan in which a document could not be
    opened the state is [initializing], not [uninitialized], and a further
    call of [initialize], on a corpus that now opens, changes nothing. *)
Lemma failed_scan_stays_initializing :
  let s := initialize failing_scan new_scanner in
  _state s = initializing ∧
  emitted s = [] ∧
  initialize corpus s = s ∧
  _resultsByFile (initialize corpus s) = None ∧
  _resultsById (initialize corpus s) = None.
Proof. repeat split; vm_compute; reflexivity. Qed.

(** C6, amended. When a promise of the initial scan is rejected, nothing is
    given to either subject, the failure is written to the console and not
    thrown, and the state stays [initializing]: every later call of
    [initialize] returns at once and the index is not built. *)
Theorem failed_scan_publishes_nothing (s0 : WorkspaceScanner)
    (outcomes : list ScanOutcome) (err : string) :
  _state s0 = uninitialized →
  head (omap rejected outcomes) = Some err →
  emitted (initialize outcomes s0) = emitted s0 ∧
  _resultsByFile (initialize outcomes s0) = _resultsByFile s0 ∧
  _resultsById (initialize outcomes s0) = _resultsById s0 ∧
  last (console (initialize outcomes s0))
  = Some (LogError ("[i18n-manager]: Failed to initialize i18n repository: " +:+ err)) ∧
  _state (initialize outcomes s0) = initializing ∧
  ∀ outcomes', initialize outcomes' (initialize outcomes s0) = initialize outcomes s0.
Proof.
  intros Hst Herr.
  assert (Hi : ∃ h, initialize outcomes s0
                = log (LogError ("[i18n-manager]: Failed to initialize i18n repository: "
                                 +:+ err))
                    (with_arrays h
                       (with_state initializing
                          (log (Log "[i18n-manager] initializing i18n repository") s0)))).
  { unfold initialize, initialize_call. rewrite Hst. unfold scan_settled.
    destruct (foldl scan_document _ _) as [bf [m h]].
    destruct (omap rejected outcomes) as [|e es]; [done|].
    injection Herr as ->. by exists h. }
  destruct Hi as [h ->].
  split; [done|]. split; [done|]. split; [done|].
  split; [cbn [console log]; by rewrite last_snoc|].
  split; [done|]. intros outcomes'. reflexivity.
Qed.

Lemma failed_scan_publishes_nothing_witness :
  _state new_scanner = uninitialized ∧
  head (omap rejected failing_scan) = Some "cannot open" ∧
  emitted (initialize failing_scan new_scanner) = emitted new_scanner ∧
  _state (initialize failing_scan new_scanner) = initializing.
Proof.
  split; [reflexivity|]. split; [reflexivity|].
  pose proof (failed_scan_publishes_nothing new_scanner failing_scan "cannot open"
                eq_refl eq_refl) as (H1 & _ & _ & _ & H5 & _).
  split; [exact H1|exact H5].
Defined.

(** ** Saves that arrive early

    [registerEvents]: a save that arrives before the scanner is initialised
    starts an interval of 1000 ms whose callback looks at the state again.
    Time is counted in milliseconds; an interval set at [t] is due at
    [t + 1000], and again 1000 ms later for as long as it is not cleared.
    The callbacks that are due at the same millisecond run in the order in
    which their intervals were set. *)

Definition period : nat := 1000.

Record Interval := { due : nat; saved : TextDocument }.

Record Engine := {
  scanner : WorkspaceScanner;
  now : nat;
  intervals : list Interval;
  delivered : list TextDocument;   (* the [savedDocumentSubject.next] calls *)
}.

(** [savedDocumentSubject.next(doc)]: the subscriber of line 135 runs
    [onDocumentSave]. *)
Definition next_saved (document : TextDocument) (e : Engine) : Engine :=
  {| scanner := onDocumentSave document (scanner e); now := now e;
     intervals := intervals e; delivered := delivered e ++ [document] |}.

Definition keep_interval (iv : Interval) (e : Engine) : Engine :=
  {| scanner := scanner e; now := now e; intervals := intervals e ++ [iv];
     delivered := delivered e |}.

(** The listener of lines 122 to 134. *)
Definition onDidSaveTextDocument (document : TextDocument) (e : Engine) : Engine :=
  match _state (scanner e) with
  | initialized => next_saved document e
  | _ => keep_interval {| due := now e + period; saved := document |} e
  end.

(** The callback of lines 127 to 132, when its interval [iv] is due: it
    forwards the document and clears the interval, or waits for the next
    period. *)
Definition interval_callback (iv : Interval) (e : Engine) : Engine :=
  match _state (scanner e) with
  | initialized => next_saved (saved iv) e
  | _ => keep_interval {| due := due iv + period; saved := saved iv |} e
  end.

Definition run_interval (e : Engine) (iv : Interval) : Engine :=
  if bool_decide (due iv = now e) then interval_callback iv e else keep_interval iv e.

(** One millisecond passes. *)
Definition tick (e : Engine) : Engine :=
  foldl run_interval
    {| scanner := scanner e; now := S (now e); intervals := [];
       delivered := delivered e |}
    (intervals e).

Inductive Event :=
  | Saved (document : TextDocument)
  | Tick
  | Settled (outcomes : list ScanOutcome).

Definition step (e : Engine) (ev : Event) : Engine :=
  match ev with
  | Saved document => onDidSaveTextDocument document e
  | Tick => tick e
  | Settled outcomes =>
      {| scanner := scan_settled outcomes (scanner e); now := now e;
         intervals := intervals e; delivered := delivered e |}
  end.

Definition run (e : Engine) (evs : list Event) : Engine := foldl step e evs.

(** The engine when [initialize] has returned: the listener is registered
    and the scan is under way. *)
Definition activated : Engine :=
  {| scanner := (initialize_call new_scanner).1; now := 0; intervals := [];
     delivered := [] |}.

(** What happens before the scan settles: a save or a tick. *)
Definition early (x : option TextDocument) : Event :=
  match x with
  | Some document => Saved document
  | None => Tick
  end.

Definition a_edited : TextDocument :=
  doc "/a.html" "<u i18n>" [wr "welcome" "Hello {{you}}" 1].

(** C9, as stated, fails in the order of delivery: [a.html] is saved 100 ms
    and [b.html] 600 ms after the start, the scan settles at 1300 ms; the
    interval of [b.html] is due first, at 1600 ms, that of [a.html] at
    2100 ms. *)
Lemma late_saves_change_order :
  let e := run activated
             (replicate 100 Tick ++ [Saved a_edited] ++ replicate 500 Tick
              ++ [Saved b_edited] ++ replicate 700 Tick
              ++ [Settled corpus] ++ replicate 1000 Tick) in
  _state (scanner e) = initialized ∧
  intervals e = [] ∧
  delivered e = [b_edited; a_edited].
Proof.
  split; [vm_compute; reflexivity|]. split; vm_compute; reflexivity.
Qed.

(** *** While the scan is under way, and after *)

Lemma onDocumentSave_state document s :
  _state (onDocumentSave document s) = _state s.
Proof.
  unfold onDocumentSave. destruct (negb _); [done|].
  destruct (_resultsByFile s); [|done]. destruct (_resultsById s); [|done].
  by destruct (save_maps _ _ _ _) as [nf [nm h]].
Qed.

Definition save_all (s : WorkspaceScanner) (documents : list TextDocument)
  : WorkspaceScanner :=
  foldl (λ s document, onDocumentSave document s) s documents.

Lemma save_all_state documents s : _state (save_all s documents) = _state s.
Proof.
  revert s. induction documents as [|d documents IH]; intros s; [done|].
  simpl. unfold save_all in IH. by rewrite IH, onDocumentSave_state.
Qed.

(** The interval as the callback leaves it when the scanner is not ready. *)
Definition rearm (t : nat) (iv : Interval) : Interval :=
  if bool_decide (due iv = t) then {| due := due iv + period; saved := saved iv |}
  else iv.

Lemma foldl_run_waiting ivs e0 :
  _state (scanner e0) ≠ initialized →
  foldl run_interval e0 ivs
  = {| scanner := scanner e0; now := now e0;
       intervals := intervals e0 ++ (rearm (now e0) <$> ivs);
       delivered := delivered e0 |}.
Proof.
  revert e0. induction ivs as [|iv ivs IH]; intros e0 Hst.
  - simpl. rewrite app_nil_r. by destruct e0.
  - simpl. unfold run_interval at 2, interval_callback, rearm.
    case_bool_decide.
    + destruct (_state (scanner e0)) eqn:Hs; [| |done];
        (rewrite IH by (simpl; by rewrite Hs); simpl; by rewrite <- app_assoc).
    + rewrite IH by done. simpl. by rewrite <- app_assoc.
Qed.

Lemma tick_waiting e :
  _state (scanner e) ≠ initialized →
  tick e = {| scanner := scanner e; now := S (now e);
              intervals := rearm (S (now e)) <$> intervals e;
              delivered := delivered e |}.
Proof. intros Hst. unfold tick. by rewrite foldl_run_waiting. Qed.

Definition due_at (ivs : list Interval) (t : nat) : list Interval :=
  filter (λ iv, due iv = t) ivs.

Lemma foldl_run_ready ivs e0 :
  _state (scanner e0) = initialized →
  foldl run_interval e0 ivs
  = {| scanner := save_all (scanner e0) (saved <$> due_at ivs (now e0));
       now := now e0;
       intervals := intervals e0 ++ filter (λ iv, due iv ≠ now e0) ivs;
       delivered := delivered e0 ++ (saved <$> due_at ivs (now e0)) |}.
Proof.
  unfold due_at. revert e0. induction ivs as [|iv ivs IH]; intros e0 Hst.
  - simpl. rewrite !app_nil_r. by destruct e0.
  - simpl. unfold run_interval at 2, interval_callback.
    case_bool_decide as Hd.
    + rewrite Hst. rewrite IH by (simpl; by rewrite onDocumentSave_state).
      simpl. rewrite filter_cons_True by done.
      rewrite (filter_cons_False (λ iv, due iv ≠ now e0)) by tauto.
      simpl. by rewrite <- app_assoc.
    + rewrite IH by done. simpl. rewrite filter_cons_False by done.
      rewrite (filter_cons_True (λ iv, due iv ≠ now e0)) by done.
      by rewrite <- app_assoc.
Qed.

Lemma tick_ready e :
  _state (scanner e) = initialized →
  tick e = {| scanner := save_all (scanner e) (saved <$> due_at (intervals e) (S (now e)));
              now := S (now e);
              intervals := filter (λ iv, due iv ≠ S (now e)) (intervals e);
              delivered := delivered e ++ (saved <$> due_at (intervals e) (S (now e))) |}.
Proof. intros Hst. unfold tick. by rewrite foldl_run_ready. Qed.

(** The intervals that are due in the [k] milliseconds from [a] on, by the
    millisecond at which they are due and, within one millisecond, in the
    order in which they were set. *)
Definition schedule (ivs : list Interval) (a k : nat) : list Interval :=
  concat (due_at ivs <$> seq a k).

Lemma due_at_later ivs n t :
  t ≠ n → due_at (filter (λ iv, due iv ≠ n) ivs) t = due_at ivs t.
Proof.
  intros Hne. unfold due_at. rewrite list_filter_filter.
  apply list_filter_iff. intros iv. split; [tauto|]. intros ->. done.
Qed.

Lemma schedule_later ivs n a k :
  n < a → schedule (filter (λ iv, due iv ≠ n) ivs) a k = schedule ivs a k.
Proof.
  intros Hlt. unfold schedule. f_equal. apply Forall_fmap_ext_1.
  apply Forall_forall. intros t [Ht _]%elem_of_seq. apply due_at_later. lia.
Qed.

Lemma filter_all_true {A} (P : A → Prop) `{∀ x, Decision (P x)} (l : list A) :
  Forall P l → filter P l = l.
Proof.
  induction 1 as [|x l Hx _ IH]; [done|].
  rewrite filter_cons_True by done. by f_equal.
Qed.

Lemma ticks_ready k e :
  _state (scanner e) = initialized →
  run e (replicate k Tick)
  = {| scanner := save_all (scanner e) (saved <$> schedule (intervals e) (S (now e)) k);
       now := now e + k;
       intervals := filter (λ iv, ¬ (now e < due iv ≤ now e + k)) (intervals e);
       delivered := delivered e ++ (saved <$> schedule (intervals e) (S (now e)) k) |}.
Proof.
  revert e. induction k as [|k IH]; intros e Hst.
  - simpl. rewrite app_nil_r, Nat.add_0_r.
    rewrite filter_all_true by (apply Forall_forall; intros iv _; lia).
    by destruct e.
  - simpl. rewrite (tick_ready e Hst).
    unfold run in IH. rewrite IH by (simpl; by rewrite save_all_state).
    simpl. f_equal.
    + unfold save_all. rewrite <- foldl_app, <- fmap_app. do 2 f_equal.
      rewrite schedule_later by lia. done.
    + lia.
    + rewrite list_filter_filter. apply list_filter_iff. intros iv. lia.
    + rewrite <- app_assoc, <- fmap_app. do 2 f_equal.
      rewrite schedule_later by lia. done.
Qed.

Lemma filter_none_true {A} (P : A → Prop) `{∀ x, Decision (P x)} (l : list A) :
  Forall (λ x, ¬ P x) l → filter P l = [].
Proof.
  induction 1 as [|x l Hx _ IH]; [done|]. by rewrite filter_cons_False.
Qed.

Lemma due_at_next ivs a k :
  filter (λ iv, a ≤ due iv < a + k) ivs ++ due_at ivs (a + k)
  ≡ₚ filter (λ iv, a ≤ due iv < a + S k) ivs.
Proof.
  unfold due_at. induction ivs as [|iv ivs IH]; [done|].
  destruct (decide (a ≤ due iv < a + k)) as [Hin|Hout].
  - rewrite (filter_cons_True (λ iv, a ≤ due iv < a + k)) by done.
    rewrite (filter_cons_False (λ iv, due iv = a + k)) by lia.
    rewrite (filter_cons_True (λ iv, a ≤ due iv < a + S k)) by lia.
    simpl. by rewrite IH.
  - rewrite (filter_cons_False (λ iv, a ≤ due iv < a + k)) by done.
    destruct (decide (due iv = a + k)) as [Hd|Hd].
    + rewrite (filter_cons_True (λ iv, due iv = a + k)) by done.
      rewrite (filter_cons_True (λ iv, a ≤ due iv < a + S k)) by lia.
      rewrite <- Permutation_middle. by rewrite IH.
    + rewrite (filter_cons_False (λ iv, due iv = a + k)) by done.
      rewrite (filter_cons_False (λ iv, a ≤ due iv < a + S k)) by lia.
      done.
Qed.

Lemma schedule_perm ivs a k :
  schedule ivs a k ≡ₚ filter (λ iv, a ≤ due iv < a + k) ivs.
Proof.
  unfold schedule. induction k as [|k IH].
  - simpl. rewrite filter_none_true; [done|]. apply Forall_forall. intros iv _. lia.
  - rewrite seq_S, fmap_app, concat_app. simpl. rewrite app_nil_r, IH.
    apply due_at_next.
Qed.

Lemma saved_rearm t (ivs : list Interval) :
  saved <$> (rearm t <$> ivs) = saved <$> ivs.
Proof.
  rewrite <- list_fmap_compose. apply Forall_fmap_ext_1, Forall_forall.
  intros iv _. unfold rearm. simpl. by case_bool_decide.
Qed.

Lemma scan_settled_state outcomes s :
  omap rejected outcomes = [] → _state (scan_settled outcomes s) = initialized.
Proof.
  intros Hr. unfold scan_settled. rewrite Hr.
  by destruct (foldl scan_document _ _) as [bf [m h]].
Qed.

Lemma run_cons e ev evs : run e (ev :: evs) = run (step e ev) evs.
Proof. reflexivity. Qed.

(** The documents saved before the scan settles, in the order of arrival. *)
Definition arrivals (pre : list (option TextDocument)) : list TextDocument :=
  omap (λ x, x) pre.

(** Before the scan settles every save is kept, in the order of arrival, and
    nothing is forwarded. *)
Lemma run_early pre :
  scanner (run activated (early <$> pre)) = (initialize_call new_scanner).1 ∧
  delivered (run activated (early <$> pre)) = [] ∧
  saved <$> intervals (run activated (early <$> pre)) = arrivals pre ∧
  Forall (λ iv, now (run activated (early <$> pre)) < due iv
                ≤ now (run activated (early <$> pre)) + period)
    (intervals (run activated (early <$> pre))).
Proof.
  induction pre as [|x pre IH] using rev_ind; [by repeat split|].
  unfold run in *. rewrite fmap_app, foldl_app. simpl.
  destruct IH as (Hsc & Hd & Hsv & Hdue).
  set (e := foldl step activated (early <$> pre)) in *.
  assert (Hst : _state (scanner e) = initializing) by by rewrite Hsc.
  destruct x as [document|]; simpl.
  - unfold onDidSaveTextDocument. rewrite Hst. simpl.
    split; [done|]. split; [done|]. split.
    + unfold arrivals in *. by rewrite fmap_app, omap_app, Hsv.
    + apply Forall_app. split; [done|]. apply Forall_singleton. simpl.
      unfold period. lia.
  - rewrite tick_waiting by (by rewrite Hst). simpl.
    split; [done|]. split; [done|]. split.
    + unfold arrivals in *. rewrite saved_rearm, omap_app, Hsv. simpl. by rewrite app_nil_r.
    + apply Forall_fmap. eapply Forall_impl; [exact Hdue|].
      intros iv Hiv. unfold rearm. simpl.
      case_bool_decide; simpl; unfold period in *; lia.
Qed.

(** C9, amended. A save that arrives before the scanner is initialised is
    kept with an interval of 1000 ms; once the scan has settled, every such
    save is forwarded to [onDocumentSave] exactly once, at the first tick of
    its own interval, so within 1000 ms; the saves are forwarded in the order
    of these ticks (in the order of arrival within one millisecond), which
    need not be the order of arrival. *)
Theorem early_saves_forwarded_once (pre : list (option TextDocument))
    (outcomes : list ScanOutcome) :
  omap rejected outcomes = [] →
  let e0 := run activated (early <$> pre) in
  let e := run e0 (Settled outcomes :: replicate period Tick) in
  delivered e0 = [] ∧
  saved <$> intervals e0 = arrivals pre ∧
  intervals e = [] ∧
  delivered e = saved <$> schedule (intervals e0) (S (now e0)) period ∧
  delivered e ≡ₚ arrivals pre ∧
  scanner e = save_all (scan_settled outcomes (scanner e0)) (delivered e).
Proof.
  intros Hr. cbv zeta.
  destruct (run_early pre) as (Hsc & Hd & Hsv & Hdue).
  set (e0 := run activated (early <$> pre)) in *.
  rewrite run_cons, ticks_ready by (cbn [step scanner]; by apply scan_settled_state).
  cbn [step scanner now intervals delivered]. rewrite Hd, app_nil_l.
  split; [done|]. split; [done|].
  split; [|split; [done|split; [|done]]].
  - apply filter_none_true. eapply Forall_impl; [exact Hdue|]. intros iv. cbv beta. lia.
  - rewrite <- Hsv. apply fmap_Permutation. rewrite schedule_perm.
    rewrite filter_all_true; [done|].
    eapply Forall_impl; [exact Hdue|]. intros iv. cbv beta. lia.
Qed.

Lemma early_saves_forwarded_once_witness :
  omap rejected corpus = [] ∧
  delivered (run (run activated (early <$> [None; Some a_edited; None; Some b_edited]))
               (Settled corpus :: replicate period Tick))
  ≡ₚ [a_edited; b_edited].
Proof.
  split; [reflexivity|].
  exact (proj1 (proj2 (proj2 (proj2 (proj2
           (early_saves_forwarded_once [None; Some a_edited; None; Some b_edited]
              corpus eq_refl)))))).
Defined.

(** * Further properties

    ** The normalisation: what its results look like *)

(** The three replacements of [strippedString] on the characters of a
    value. *)
Definition normalise (l : list ascii) : list ascii :=
  replace re_spaces (chars " ")
    (replace re_placeholder (chars "{}") (replace re_newline [] l)).

Lemma strippedString_normalise s :
  strippedString (Some s) = Some (string_of_list_ascii (normalise (chars s))).
Proof. destruct s; reflexivity. Qed.

Definition newline_free (l : list ascii) : Prop := Forall (λ c, ¬ is_newline c) l.

(** No placeholder starts anywhere in the text. *)
Fixpoint placeholder_free (l : list ascii) : Prop :=
  match l with
  | [] => True
  | c :: l' => ¬ placeholder_at (c :: l') ∧ placeholder_free l'
  end.

(** No two spaces stand side by side. *)
Fixpoint single_spaced (l : list ascii) : Prop :=
  match l with
  | [] => True
  | c :: l' => (c = SP → head l' ≠ Some SP) ∧ single_spaced l'
  end.

Definition normal (l : list ascii) : Prop :=
  newline_free l ∧ placeholder_free l ∧ single_spaced l.

Lemma replace_from_Forall (P : ascii → Prop) r by_ k s :
  Forall P by_ → Forall P s → Forall P (replace_from r by_ k s).
Proof.
  intros Hby Hs. revert k. induction Hs as [|c s Hc Hs IH]; intros k; [constructor|].
  simpl. destruct k as [|k]; [|apply IH].
  destruct (match_here r (c :: s)) as [rest|]; [|constructor; [done|apply IH]].
  destruct (_ - _); apply Forall_app; (split; [done|]); [constructor; [done|]|]; apply IH.
Qed.

Lemma replace_newline_free s : newline_free (replace re_newline [] s).
Proof.
  rewrite replace_newline. apply Forall_forall. by intros c [? _]%list_elem_of_filter.
Qed.

Lemma collapsed_head_close s out :
  placeholders_collapsed s (("}"%char) :: out) → ∃ s', s = ("}"%char :: s').
Proof. inversion 1; subst; eauto. Qed.

(** A closed run of the result comes from a closed run of the text, which
    is not shorter. *)
Lemma collapsed_close s out :
  placeholders_collapsed s out →
  ∀ body rest, "}"%char ∉ body → out = body ++ chars "}}" ++ rest →
  ∃ body' rest', ("}"%char ∉ body') ∧ s = body' ++ chars "}}" ++ rest' ∧
                 length body ≤ length body'.
Proof.
  induction 1 as [|b r o Hb Hd IH|c s1 o1 Hno Hd IH]; intros body rest Hbody Heq.
  - by destruct body.
  - destruct body as [|c body]; [discriminate|].
    simpl in Heq. injection Heq as <- Heq.
    destruct body as [|c body].
    2:{ injection Heq as <- _. destruct Hbody. right. left. }
    exists (chars "{{" ++ b), r. destruct Hb as [_ Hb]. split; [|split].
    + intros [?|[?|?]%elem_of_cons]%elem_of_cons; done.
    + by rewrite <- app_assoc.
    + simpl. lia.
  - destruct body as [|d body].
    + simpl in Heq. injection Heq as -> ->.
      destruct (collapsed_head_close _ _ Hd) as [s' ->]. by exists [], s'.
    + simpl in Heq. injection Heq as -> ->.
      destruct (IH body rest) as (body' & rest' & Hb' & -> & Hlen); [|done|].
      { intros Hin. apply Hbody. by right. }
      exists (d :: body'), rest'. split; [|split; [done|simpl; lia]].
      intros [<-|?]%elem_of_cons; [|done]. apply Hbody. left.
Qed.

Lemma collapsed_no_placeholder s out :
  placeholders_collapsed s out → ¬ placeholder_at out.
Proof.
  intros Hd (body & rest & [Hne Hbody] & Heq).
  destruct Hd as [|b r o Hb Hd|c s1 o1 Hno Hd]; [discriminate| |].
  { simpl in Heq. injection Heq as Heq. destruct body; discriminate. }
  simpl in Heq. injection Heq as -> ->.
  inversion Hd as [|b r o Hb Hd' E1 E2|c s2 o2 Hno2 Hd' E1 E2]; subst.
  { destruct body as [|d body]; [done|].
    simpl in E2. injection E2 as <- _. apply Hbody. left. }
  destruct (collapsed_close _ _ Hd' body rest Hbody eq_refl)
    as (body' & rest' & Hb' & -> & Hlen).
  apply Hno. exists body', rest'. split; [|done]. split; [|done].
  intros ->. destruct body; [done|simpl in Hlen; lia].
Qed.

Lemma collapsed_placeholder_free s out :
  placeholders_collapsed s out → placeholder_free out.
Proof.
  intros Hd. pose proof Hd as Hd0.
  induction Hd as [|b r o Hb Hd IH|c s1 o1 Hno Hd IH]; [done| |].
  - simpl. split; [|split; [|by apply IH]].
    + intros (body & rest & _ & Heq). simpl in Heq. discriminate.
    + intros (body & rest & _ & Heq). simpl in Heq. discriminate.
  - simpl. split; [by apply (collapsed_no_placeholder _ _ Hd0)|by apply IH].
Qed.

Lemma placeholder_free_app l1 l2 : placeholder_free (l1 ++ l2) → placeholder_free l2.
Proof. induction l1 as [|c l1 IH]; [done|]. intros [_ H]. by apply IH. Qed.

Lemma spaces_head_close s out :
  spaces_collapsed s (("}"%char) :: out) → ∃ s', s = ("}"%char :: s').
Proof. inversion 1; subst; eauto. Qed.

Lemma spaces_close s out :
  spaces_collapsed s out →
  ∀ body rest, "}"%char ∉ body → out = body ++ chars "}}" ++ rest →
  ∃ body' rest', ("}"%char ∉ body') ∧ s = body' ++ chars "}}" ++ rest' ∧
                 length body ≤ length body'.
Proof.
  induction 1 as [|n r o Hhd Hd IH|c s1 o1 Hc Hd IH]; intros body rest Hbody Heq.
  - by destruct body.
  - destruct body as [|d body]; [discriminate|].
    simpl in Heq. injection Heq as <- ->.
    destruct (IH body rest) as (body' & rest' & Hb' & -> & Hlen); [|done|].
    { intros Hin. apply Hbody. by right. }
    exists (replicate (S n) SP ++ body'), rest'. split; [|split].
    + intros [Hin|Hin]%elem_of_app; [|done].
      apply elem_of_replicate in Hin as [Hin _]. discriminate.
    + by rewrite <- app_assoc.
    + rewrite length_app. simpl. lia.
  - destruct body as [|d body].
    + simpl in Heq. injection Heq as -> ->.
      destruct (spaces_head_close _ _ Hd) as [s' ->]. by exists [], s'.
    + simpl in Heq. injection Heq as -> ->.
      destruct (IH body rest) as (body' & rest' & Hb' & -> & Hlen); [|done|].
      { intros Hin. apply Hbody. by right. }
      exists (d :: body'), rest'. split; [|split; [done|simpl; lia]].
      intros [<-|?]%elem_of_cons; [|done]. apply Hbody. left.
Qed.

Lemma spaces_placeholder s out :
  spaces_collapsed s out → placeholder_at out → placeholder_at s.
Proof.
  intros Hd (body & rest & [Hne Hbody] & Heq). simpl in Heq.
  inversion Hd as [|n r o Hhd Hd1 E1 E2|c s1 o1 Hc Hd1 E1 E2]; subst; try discriminate.
  injection E2 as -> ->.
  inversion Hd1 as [|n r o Hhd Hd2 E1 E2|c s2 o2 Hc2 Hd2 E1 E2]; subst; try discriminate.
  destruct (spaces_close _ _ Hd2 body rest Hbody eq_refl)
    as (body' & rest' & Hb' & -> & Hlen).
  exists body', rest'. split; [|done]. split; [|done].
  intros ->. destruct body; [done|simpl in Hlen; lia].
Qed.

Lemma spaces_placeholder_free s out :
  spaces_collapsed s out → placeholder_free s → placeholder_free out.
Proof.
  intros Hd. pose proof Hd as Hd0.
  induction Hd as [|n r o Hhd Hd IH|c s1 o1 Hc Hd IH]; intros Hs; [done| |].
  - simpl. split.
    + intros (body & rest & _ & Heq). simpl in Heq. discriminate.
    + apply IH; [done|]. by apply (placeholder_free_app (replicate (S n) SP)).
  - destruct Hs as [Hno Hs]. simpl. split; [|by apply IH].
    intros Hp. apply Hno. by apply (spaces_placeholder _ _ Hd0).
Qed.

Lemma spaces_single_spaced s out :
  spaces_collapsed s out →
  single_spaced out ∧ (head s ≠ Some SP → head out ≠ Some SP).
Proof.
  induction 1 as [|n r o Hhd Hd [IH1 IH2]|c s1 o1 Hc Hd [IH1 IH2]]; [done| |].
  - split; [|by intros []]. simpl. split; [|done]. intros _. by apply IH2.
  - split; [|simpl; congruence]. simpl. split; [done|done].
Qed.

Lemma replace_placeholders_newline_free s :
  newline_free s → newline_free (replace re_placeholder (chars "{}") s).
Proof.
  intros Hs. apply replace_from_Forall; [|done].
  repeat constructor; intros [?|?]; discriminate.
Qed.

Lemma replace_spaces_newline_free s :
  newline_free s → newline_free (replace re_spaces (chars " ") s).
Proof.
  intros Hs. apply replace_from_Forall; [|done].
  repeat constructor; intros [?|?]; discriminate.
Qed.

Lemma normalise_normal l : normal (normalise l).
Proof.
  unfold normalise. split; [|split].
  - apply replace_spaces_newline_free, replace_placeholders_newline_free,
      replace_newline_free.
  - eapply spaces_placeholder_free; [apply replace_spaces|].
    eapply collapsed_placeholder_free, replace_placeholders.
  - eapply spaces_single_spaced, replace_spaces.
Qed.

Lemma placeholder_free_collapsed l : placeholder_free l → placeholders_collapsed l l.
Proof.
  induction l as [|c l IH]; [constructor|]. intros [Hno Hl]. constructor; auto.
Qed.

Lemma single_spaced_collapsed l : single_spaced l → spaces_collapsed l l.
Proof.
  induction l as [|c l IH]; [constructor|]. intros [Hc Hl].
  destruct (decide (c = SP)) as [->|Hne].
  - apply (sc_run 0 l l); auto.
  - constructor; auto.
Qed.

Lemma normalise_fixed l : normal l → normalise l = l.
Proof.
  intros (Hn & Hp & Hs). unfold normalise.
  rewrite replace_newline, filter_all_true by done.
  rewrite (placeholders_collapsed_fun _ _ _ (replace_placeholders l)
             (placeholder_free_collapsed l Hp)).
  apply (spaces_collapsed_fun _ _ _ (replace_spaces l) (single_spaced_collapsed l Hs)).
Qed.

Lemma collapsed_length s out :
  placeholders_collapsed s out → length out ≤ length s.
Proof.
  induction 1 as [|b r o Hb Hd IH|c s1 o1 Hno Hd IH]; simpl; [done| |lia].
  rewrite !length_app. simpl. lia.
Qed.

Lemma spaces_length s out : spaces_collapsed s out → length out ≤ length s.
Proof.
  induction 1 as [|n r o Hhd Hd IH|c s1 o1 Hc Hd IH]; simpl; [done| |lia].
  rewrite length_app, length_replicate. lia.
Qed.

Lemma normalise_length l : length (normalise l) ≤ length l.
Proof.
  unfold normalise.
  etransitivity; [apply spaces_length, replace_spaces|].
  etransitivity; [apply collapsed_length, replace_placeholders|].
  rewrite replace_newline. apply length_filter.
Qed.

Lemma chars_length s : length (chars s) = String.length s.
Proof. induction s as [|c s IH]; [done|]. simpl. by f_equal. Qed.

Lemma chars_of_list l : chars (string_of_list_ascii l) = l.
Proof. apply list_ascii_of_string_of_list_ascii. Qed.

Lemma chars_inj s1 s2 : chars s1 = chars s2 → s1 = s2.
Proof.
  intros H. rewrite <- (string_of_list_ascii_of_string s1),
    <- (string_of_list_ascii_of_string s2). unfold chars in H. by rewrite H.
Qed.

(** X1. The result of the normalisation holds no newline character, no
    placeholder and no two adjacent spaces, and is never longer than the
    value. *)
Theorem strippedString_result_normal (s : string) :
  ∃ out, strippedString (Some s) = Some out ∧
         newline_free (chars out) ∧
         placeholder_free (chars out) ∧
         single_spaced (chars out) ∧
         String.length out ≤ String.length s.
Proof.
  exists (string_of_list_ascii (normalise (chars s))).
  split; [apply strippedString_normalise|].
  rewrite chars_of_list, <- !chars_length, chars_of_list.
  destruct (normalise_normal (chars s)) as (? & ? & ?).
  repeat split; try done. apply normalise_length.
Qed.

(** X2. The normalisation is idempotent, and the values it leaves as they
    are are exactly those without newline characters, without placeholders
    and without two adjacent spaces. *)
Theorem strippedString_idempotent :
  (∀ v, strippedString (strippedString v) = strippedString v) ∧
  (∀ s, strippedString (Some s) = Some s ↔ normal (chars s)).
Proof.
  split.
  - intros [s|]; [|done]. rewrite !strippedString_normalise, chars_of_list.
    by rewrite (normalise_fixed _ (normalise_normal _)).
  - intros s. rewrite strippedString_normalise. split.
    + intros [= Heq]. rewrite <- Heq at 1. rewrite chars_of_list. apply normalise_normal.
    + intros Hn. rewrite (normalise_fixed _ Hn). f_equal.
      apply string_of_list_ascii_of_string.
Qed.

Lemma strippedString_idempotent_witness :
  normal (chars "Hi {} and { } you") ∧
  strippedString (Some "Hi {} and { } you") = Some "Hi {} and { } you".
Proof.
  assert (H : normal (chars "Hi {} and { } you")).
  { pose proof (normalise_normal (chars "Hi {} and { } you")) as Hn.
    vm_compute normalise in Hn. exact Hn. }
  split; [exact H|].
  exact (proj2 (proj2 strippedString_idempotent "Hi {} and { } you") H).
Defined.

(** ** The validated view: what it changes and what it keeps *)

Lemma set_state_twice st msg r :
  set_state st msg (set_state st msg r) = set_state st msg r.
Proof. reflexivity. Qed.

Lemma check_html_cases r :
  check_html r = r ∨
  (state (result r) = Success ∧ check_html r = set_state Warning html_message r).
Proof.
  unfold check_html. destruct (state (result r)); auto.
  destruct (truthy _); auto. case_bool_decide; auto.
Qed.

Lemma check_html_twice r : check_html (check_html r) = check_html r.
Proof.
  destruct (check_html_cases r) as [He|[_ He]]; [by rewrite !He|].
  rewrite He. by apply check_html_not_success.
Qed.

Lemma check_html_value r : value (result (check_html r)) = value (result r).
Proof. by destruct (check_html_cases r) as [He|[_ He]]; rewrite He. Qed.

Lemma values_fmap (f : WalkerByIdResult → WalkerByIdResult) results :
  (∀ r, value (result (f r)) = value (result r)) →
  values (f <$> results) = values results.
Proof.
  intros Hf. unfold values. induction results as [|r results IH]; [done|].
  rewrite fmap_cons. simpl. rewrite Hf. destruct (truthy _); [f_equal|]; exact IH.
Qed.

Lemma values_differ_fmap (f : WalkerByIdResult → WalkerByIdResult) results :
  (∀ r, value (result (f r)) = value (result r)) →
  values_differ (f <$> results) ↔ values_differ results.
Proof. intros Hf. unfold values_differ. by rewrite (values_fmap f results Hf). Qed.

(** What the validated view is, for one bucket. *)
Lemma validate_bucket_cases results :
  (values_differ results ∧
   validate_bucket results = set_state Error mismatch_message <$> results) ∨
  (¬ values_differ results ∧ validate_bucket results = check_html <$> results).
Proof.
  unfold validate_bucket. destruct (values_differ_dec results) as [Hd|Hd].
  - left. split; [done|]. by rewrite check_consistency_marks, check_html_marked.
  - right. split; [done|]. by rewrite check_consistency_keeps.
Qed.

Lemma validate_bucket_twice results :
  validate_bucket (validate_bucket results) = validate_bucket results.
Proof.
  destruct (validate_bucket_cases results) as [[Hd Hv]|[Hd Hv]]; rewrite Hv.
  - assert (Hd' : values_differ (set_state Error mismatch_message <$> results))
      by by apply values_differ_fmap.
    destruct (validate_bucket_cases (set_state Error mismatch_message <$> results))
      as [[_ ->]|[Hn _]]; [|by destruct Hn].
    by rewrite <- list_fmap_compose.
  - assert (Hd' : ¬ values_differ (check_html <$> results)).
    { intros H. apply Hd. revert H. apply values_differ_fmap, check_html_value. }
    destruct (validate_bucket_cases (check_html <$> results)) as [[Hn _]|[_ ->]];
      [by destruct Hd'|].
    rewrite <- list_fmap_compose. apply list_fmap_ext. intros i r _. simpl.
    apply check_html_twice.
Qed.

(** The fields the validation never writes to. *)
Definition same_site (r r' : WalkerByIdResult) : Prop :=
  id (result r') = id (result r) ∧
  value (result r') = value (result r) ∧
  location (result r') = location (result r) ∧
  file r' = file r.

(** X3. The validated view has the identifiers of the view it is computed
    from and, in every bucket, the same occurrences in the same order: an
    occurrence keeps its identifier, value, location and file, and is either
    unchanged, or [error] with the consistency message, or was [success] and
    is [warning] with the message of the HTML rule. *)
Theorem validated_view_keeps_occurrences :
  (∀ res : gmap string (list WalkerByIdResult),
     dom (validatedResultsById res) = dom res) ∧
  (∀ res key, validatedResultsById res !! key = validate_bucket <$> res !! key) ∧
  (∀ b, Forall2
          (λ r r', same_site r r' ∧
                   (r' = r ∨
                    (state (result r') = Error ∧
                     error (result r') = Some mismatch_message) ∨
                    (state (result r) = Success ∧ state (result r') = Warning ∧
                     error (result r') = Some html_message)))
          b (validate_bucket b)).
Proof.
  split; [intros res; apply dom_fmap_L|].
  split; [intros res key; apply lookup_fmap|].
  intros b. destruct (validate_bucket_cases b) as [[_ ->]|[_ ->]].
  - apply Forall2_fmap_r, Forall_Forall2_diag, Forall_forall. intros r _.
    unfold compose. split; [done|]. right. left. done.
  - apply Forall2_fmap_r, Forall_Forall2_diag, Forall_forall. intros r _.
    unfold compose.
    destruct (check_html_cases r) as [He|[Hs He]]; rewrite He; [by split; [|left]|].
    split; [done|]. right. right. done.
Qed.

(** X4. Validating a validated bucket, or a validated view, changes
    nothing. *)
Theorem validated_view_idempotent :
  (∀ b, validate_bucket (validate_bucket b) = validate_bucket b) ∧
  (∀ res : gmap string (list WalkerByIdResult),
     validatedResultsById (validatedResultsById res) = validatedResultsById res).
Proof.
  split; [apply validate_bucket_twice|].
  intros res. unfold validatedResultsById. rewrite <- map_fmap_compose.
  apply map_fmap_ext. intros key b _. simpl. apply validate_bucket_twice.
Qed.

Lemma values_differ_pair results :
  values_differ results ↔
  ∃ v1 v2, v1 ∈ values results ∧ v2 ∈ values results ∧
           strippedString (Some v1) ≠ strippedString (Some v2).
Proof.
  unfold values_differ. split.
  - intros [Hlen (v & Hv & Hne)].
    destruct (values results) as [|v0 vs] eqn:E; [simpl in Hlen; lia|].
    exists v, v0. split; [done|]. split; [left|done].
  - intros (v1 & v2 & H1 & H2 & Hne).
    destruct (values results) as [|v0 vs] eqn:E; [by apply elem_of_nil in H1|].
    split.
    + destruct vs as [|v vs]; [|simpl; lia].
      apply list_elem_of_singleton in H1, H2. exfalso. apply Hne. congruence.
    + change (head (v0 :: vs)) with (Some v0).
      destruct (decide (strippedString (Some v1) = strippedString (Some v0)))
        as [He|He].
      * exists v2. split; [done|]. intros H. apply Hne. by rewrite He, H.
      * by exists v1.
Qed.

Lemma values_differ_Permutation b b' :
  b ≡ₚ b' → values_differ b → values_differ b'.
Proof.
  intros Hp (v1 & v2 & H1 & H2 & Hne)%values_differ_pair.
  apply values_differ_pair. exists v1, v2.
  assert (Hv : values b ≡ₚ values b') by (unfold values; by rewrite Hp).
  by rewrite <- Hv.
Qed.

Lemma validate_bucket_Permutation b b' :
  b ≡ₚ b' → validate_bucket b ≡ₚ validate_bucket b'.
Proof.
  intros Hp.
  destruct (validate_bucket_cases b) as [[Hd ->]|[Hd ->]],
    (validate_bucket_cases b') as [[Hd' ->]|[Hd' ->]].
  - by rewrite Hp.
  - destruct Hd'. by apply (values_differ_Permutation b b').
  - destruct Hd. by apply (values_differ_Permutation b' b).
  - by rewrite Hp.
Qed.

(** X5. The verdict on a bucket does not depend on the order of its
    occurrences: the bucket is marked when two of its non-empty values
    normalise differently and left to the HTML rule otherwise, and the
    validated forms of two buckets with the same occurrences in another order
    hold the same occurrences. *)
Theorem validated_bucket_order (b b' : list WalkerByIdResult) :
  b ≡ₚ b' →
  validate_bucket b ≡ₚ validate_bucket b' ∧
  ((∃ v1 v2, v1 ∈ values b ∧ v2 ∈ values b ∧
             strippedString (Some v1) ≠ strippedString (Some v2)) →
   validate_bucket b' = set_state Error mismatch_message <$> b') ∧
  (¬ (∃ v1 v2, v1 ∈ values b ∧ v2 ∈ values b ∧
               strippedString (Some v1) ≠ strippedString (Some v2)) →
   validate_bucket b' = check_html <$> b').
Proof.
  intros Hp. split; [|split].
  - by apply validate_bucket_Permutation.
  - intros Hd%values_differ_pair%(values_differ_Permutation b b' Hp).
    by destruct (validate_bucket_cases b') as [[_ ->]|[Hn _]].
  - intros Hn. destruct (validate_bucket_cases b') as [[Hd _]|[_ ->]]; [|done].
    destruct Hn. by apply values_differ_pair, (values_differ_Permutation b' b).
Qed.

Lemma validated_bucket_order_witness :
  [occ "greet" "Hi {{name}}" "/a.html"; occ "greet" "Bye" "/b.html";
   no_value "greet" "/c.html"]
  ≡ₚ [no_value "greet" "/c.html"; occ "greet" "Bye" "/b.html";
      occ "greet" "Hi {{name}}" "/a.html"] ∧
  validate_bucket [occ "greet" "Hi {{name}}" "/a.html"; occ "greet" "Bye" "/b.html";
                   no_value "greet" "/c.html"]
  ≡ₚ validate_bucket [no_value "greet" "/c.html"; occ "greet" "Bye" "/b.html";
                      occ "greet" "Hi {{name}}" "/a.html"].
Proof.
  assert (H : [occ "greet" "Hi {{name}}" "/a.html"; occ "greet" "Bye" "/b.html";
               no_value "greet" "/c.html"]
              ≡ₚ [no_value "greet" "/c.html"; occ "greet" "Bye" "/b.html";
                  occ "greet" "Hi {{name}}" "/a.html"]).
  { exact (Permutation_rev [occ "greet" "Hi {{name}}" "/a.html";
                              occ "greet" "Bye" "/b.html"; no_value "greet" "/c.html"]). }
  split; [exact H|]. exact (proj1 (validated_bucket_order _ _ H)).
Defined.

(** ** Which saves are acted upon *)

Lemma substring_all s : substring 0 (String.length s) s = s.
Proof. induction s as [|c s IH]; [done|]. simpl. by rewrite IH. Qed.

Lemma append_cons c a b : String c a +:+ b = String c (a +:+ b).
Proof. reflexivity. Qed.

Lemma substring_append pre suf :
  substring (String.length pre) (String.length suf) (pre +:+ suf) = suf.
Proof.
  induction pre as [|c pre IH]; [apply substring_all|].
  rewrite append_cons. exact IH.
Qed.

Lemma append_length pre suf :
  String.length (pre +:+ suf) = String.length pre + String.length suf.
Proof.
  induction pre as [|c pre IH]; [done|]. rewrite append_cons. simpl. by rewrite IH.
Qed.

Lemma substring_split s n :
  n ≤ String.length s →
  s = substring 0 n s +:+ substring n (String.length s - n) s.
Proof.
  revert n. induction s as [|c s IH]; intros [|n] Hn; simpl in *; try lia.
  - done.
  - by rewrite substring_all.
  - rewrite append_cons. f_equal. apply IH. lia.
Qed.

Lemma endsWith_spec s suf : endsWith s suf = true ↔ ∃ pre, s = pre +:+ suf.
Proof.
  unfold endsWith. rewrite andb_true_iff, !bool_decide_eq_true. split.
  - intros [Hlen Hsub].
    exists (substring 0 (String.length s - String.length suf) s).
    pose proof (substring_split s (String.length s - String.length suf) ltac:(lia))
      as Hsp.
    replace (String.length s - (String.length s - String.length suf))
      with (String.length suf) in Hsp by lia.
    by rewrite Hsub in Hsp.
  - intros [pre ->]. rewrite append_length. split; [lia|].
    replace (String.length pre + String.length suf - String.length suf)
      with (String.length pre) by lia.
    apply substring_append.
Qed.

(** X6. A save is acted upon only for a document whose path ends in
    [.html]: for any other document the scanner stays as it is, with no
    emission and no log line; and for such a document, as long as one of the
    two maps is not there yet, the save only writes an error to the
    console. *)
Theorem onDocumentSave_guards (document : TextDocument) (s : WorkspaceScanner) :
  (eligible document ↔ ∃ p, path (uri document) = p +:+ ".html") ∧
  (¬ eligible document → onDocumentSave document s = s) ∧
  (eligible document → _resultsByFile s = None ∨ _resultsById s = None →
   onDocumentSave document s
   = log (LogError "[i18n-manager] We were not able to handle a saved document") s).
Proof.
  split; [apply endsWith_spec|]. split; [apply onDocumentSave_ineligible|].
  unfold eligible, onDocumentSave. intros -> [Hn|Hn]; rewrite Hn; simpl; [done|].
  by destruct (_resultsByFile s).
Qed.

Lemma onDocumentSave_guards_witness :
  ¬ eligible (doc "/notes.htm" "<p i18n>" [wr "welcome" "Hello" 1]) ∧
  onDocumentSave (doc "/notes.htm" "<p i18n>" [wr "welcome" "Hello" 1]) scanned_corpus
  = scanned_corpus.
Proof.
  assert (H : ¬ eligible (doc "/notes.htm" "<p i18n>" [wr "welcome" "Hello" 1]))
    by (vm_compute; discriminate).
  split; [exact H|].
  exact (proj1 (proj2 (onDocumentSave_guards _ scanned_corpus)) H).
Defined.

(** ** What a save does to the two views *)

(** The by-file view and one bucket of the by-identifier view after the
    save of [document]. *)
Definition saved_file (document : TextDocument)
    (bf : gmap string (list WalkerResult)) : gmap string (list WalkerResult) :=
  if decide (eligible document)
  then <[toString (uri document) := getI18nResultsForFile document]> bf
  else bf.

Definition saved_bucket (document : TextDocument) (i : string)
    (b : list WalkerByIdResult) : list WalkerByIdResult :=
  if decide (eligible document)
  then filter (λ c, ¬ tagged (toString (uri document)) c) b
       ++ (tag (uri document) <$> filter (λ O, id O = i) (getI18nResultsForFile document))
  else b.

Lemma onDocumentSave_reachable document s :
  reachable s →
  byFile_view (onDocumentSave document s) = saved_file document (byFile_view s) ∧
  ∀ i, bucket (byId_view (onDocumentSave document s)) i
       = saved_bucket document i (bucket (byId_view s) i).
Proof.
  intros Hs. unfold saved_file, saved_bucket.
  destruct (decide (eligible document)) as [He|He];
    [|by rewrite onDocumentSave_ineligible].
  pose proof (reachable_inv _ Hs) as (bf & m & Hbf & Hm & Hwf & Hc).
  destruct (onDocumentSave_views _ _ _ _ He Hbf Hm Hwf) as [-> ->].
  unfold byFile_view, byId_view. rewrite Hbf, Hm. simpl.
  split; [done|]. intros i. by apply save_view_bucket.
Qed.

Lemma reachable_initialized s : reachable s → _state s = initialized.
Proof.
  induction 1 as [outcomes [_ Hr]|document s _ IH].
  - by rewrite (initialize_new _ Hr).
  - by rewrite onDocumentSave_state.
Qed.

(** X7. A save of an [.html] document replaces the document as a whole: its
    key of the by-file view gets the fresh occurrences and the other keys
    stay; every bucket keeps the records of the other documents, in their
    order, and gets the fresh records of the document at its end. *)
Theorem save_replaces_document (s : WorkspaceScanner) (document : TextDocument) :
  reachable s → eligible document →
  byFile_view (onDocumentSave document s)
  = <[toString (uri document) := getI18nResultsForFile document]> (byFile_view s) ∧
  (∀ i, bucket (byId_view (onDocumentSave document s)) i
        = filter (λ c, ¬ tagged (toString (uri document)) c) (bucket (byId_view s) i)
          ++ (tag (uri document)
                <$> filter (λ O, id O = i) (getI18nResultsForFile document))) ∧
  _state (onDocumentSave document s) = initialized.
Proof.
  intros Hs He. destruct (onDocumentSave_reachable document s Hs) as [Hf Hb].
  unfold saved_file in Hf. unfold saved_bucket in Hb.
  destruct (decide (eligible document)); [|done].
  split; [done|]. split; [done|].
  by rewrite onDocumentSave_state, reachable_initialized.
Qed.

Lemma save_replaces_document_witness :
  reachable scanned_corpus ∧ eligible b_edited ∧
  bucket (byId_view (onDocumentSave b_edited scanned_corpus)) "welcome"
  = filter (λ c, ¬ tagged "file:///b.html" c) (bucket (byId_view scanned_corpus) "welcome")
    ++ [tag (uri b_edited) (wr "welcome" "Hi {{other}}" 1)].
Proof.
  assert (He : eligible b_edited) by reflexivity.
  split; [exact scanned_corpus_reachable|]. split; [exact He|].
  exact (proj1 (proj2 (save_replaces_document scanned_corpus b_edited
                         scanned_corpus_reachable He)) "welcome").
Defined.

(** X8. In every state after the scan and after saves the scanner is
    initialised, no bucket of the by-identifier view is empty, the
    identifiers of the by-identifier view are exactly the identifiers of the
    occurrences of the by-file view, and no two identifiers share an
    array. *)
Theorem reachable_views_invariants (s : WorkspaceScanner) :
  reachable s →
  _state s = initialized ∧
  (∀ i b, byId_view s !! i = Some b → b ≠ []) ∧
  (∀ i, is_Some (byId_view s !! i) ↔ ∃ D O, O ∈ occurrences s D ∧ id O = i) ∧
  ∃ bi, _resultsById s = Some bi ∧
        (∀ i l, bi !! i = Some l → l < length (arrays s)) ∧
        (∀ i j l, bi !! i = Some l → bi !! j = Some l → i = j).
Proof.
  intros Hs. split; [by apply reachable_initialized|].
  pose proof (reachable_inv _ Hs) as (bf & m & Hbf & Hm & Hwf & Hne & Hid & Hcor).
  unfold occurrences, byFile_view, byId_view. rewrite Hbf, Hm. simpl.
  split; [exact Hne|]. split; [|by exists m].
  intros i. split.
  - intros [b Hb]. pose proof (Hne _ _ Hb) as Hnil.
    destruct b as [|r b]; [done|].
    exists (toString (file r)), (result r).
    assert (Hr : r ∈ bucket (view (arrays s) m) i) by (unfold bucket; rewrite Hb; left).
    split; [|by apply Hid].
    assert (HO : result r ∈ result <$> filter (tagged (toString (file r)))
                   (bucket (view (arrays s) m) i)).
    { apply list_elem_of_fmap. exists r. split; [done|]. by apply list_elem_of_filter. }
    rewrite Hcor in HO. by apply list_elem_of_filter in HO as [_ ?].
  - intros (D & O & HO & <-).
    assert (HO' : O ∈ result <$> filter (tagged D) (bucket (view (arrays s) m) (id O))).
    { rewrite Hcor. by apply list_elem_of_filter. }
    apply list_elem_of_fmap in HO' as (r & _ & [_ Hr]%list_elem_of_filter).
    unfold bucket in Hr. destruct (view (arrays s) m !! id O); [done|].
    by apply elem_of_nil in Hr.
Qed.

Lemma reachable_views_invariants_witness :
  reachable (onDocumentSave b_emptied scanned_corpus) ∧
  ∀ i b, byId_view (onDocumentSave b_emptied scanned_corpus) !! i = Some b → b ≠ [].
Proof.
  assert (H : reachable (onDocumentSave b_emptied scanned_corpus))
    by apply reachable_save, scanned_corpus_reachable.
  split; [exact H|]. exact (proj1 (proj2 (reachable_views_invariants _ H))).
Defined.

(** ** Two saves *)

Lemma reachable_no_empty s : reachable s → no_empty_bucket (byId_view s).
Proof.
  intros (bf & m & Hbf & Hm & Hwf & Hne & _)%reachable_inv.
  unfold byId_view. by rewrite Hm.
Qed.

Lemma filter_not_tagged_tag_other k u (l : list WalkerResult) :
  k ≠ toString u → filter (λ c, ¬ tagged k c) (tag u <$> l) = tag u <$> l.
Proof.
  intros Hne. apply filter_all_true, Forall_forall.
  intros r (O & -> & _)%list_elem_of_fmap. unfold tagged. simpl. congruence.
Qed.

Lemma filter_not_tagged_comm k1 k2 (b : list WalkerByIdResult) :
  filter (λ c, ¬ tagged k2 c) (filter (λ c, ¬ tagged k1 c) b)
  = filter (λ c, ¬ tagged k1 c) (filter (λ c, ¬ tagged k2 c) b).
Proof. rewrite !list_filter_filter. apply list_filter_iff. tauto. Qed.

Lemma saved_bucket_same_uri d1 d2 i b :
  uri d1 = uri d2 →
  saved_bucket d2 i (saved_bucket d1 i b) = saved_bucket d2 i b.
Proof.
  intros Hu. unfold saved_bucket, eligible. rewrite Hu.
  destruct (decide (endsWith (path (uri d2)) ".html" = true)); [|done].
  rewrite filter_app, filter_not_tagged_twice, filter_not_tagged_tag.
  by rewrite app_nil_r.
Qed.

Lemma saved_file_same_uri d1 d2 bf :
  uri d1 = uri d2 → saved_file d2 (saved_file d1 bf) = saved_file d2 bf.
Proof.
  intros Hu. unfold saved_file, eligible. rewrite Hu.
  destruct (decide (endsWith (path (uri d2)) ".html" = true)); [|done].
  apply insert_insert_eq.
Qed.

Lemma saved_bucket_comm d1 d2 i b :
  toString (uri d1) ≠ toString (uri d2) →
  saved_bucket d2 i (saved_bucket d1 i b) ≡ₚ saved_bucket d1 i (saved_bucket d2 i b).
Proof.
  intros Hne. unfold saved_bucket.
  destruct (decide (eligible d1)), (decide (eligible d2)); try done.
  rewrite !filter_app, !filter_not_tagged_tag_other by done.
  rewrite filter_not_tagged_comm, <- !app_assoc.
  apply Permutation_app_head, Permutation_app_comm.
Qed.

Lemma saved_file_comm d1 d2 bf :
  toString (uri d1) ≠ toString (uri d2) →
  saved_file d2 (saved_file d1 bf) = saved_file d1 (saved_file d2 bf).
Proof.
  intros Hne. unfold saved_file.
  destruct (decide (eligible d1)), (decide (eligible d2)); try done.
  by apply insert_insert_ne.
Qed.

(** X9. A save overwrites an earlier save of the same document: both views
    are as if the earlier save had not happened. *)
Theorem later_save_overwrites (s : WorkspaceScanner) (d1 d2 : TextDocument) :
  reachable s → uri d1 = uri d2 →
  byFile_view (onDocumentSave d2 (onDocumentSave d1 s))
  = byFile_view (onDocumentSave d2 s) ∧
  byId_view (onDocumentSave d2 (onDocumentSave d1 s))
  = byId_view (onDocumentSave d2 s).
Proof.
  intros Hs Hu.
  pose proof (reachable_save d1 s Hs) as Hs1.
  destruct (onDocumentSave_reachable d1 s Hs) as [Hf1 Hb1].
  destruct (onDocumentSave_reachable d2 s Hs) as [Hf2 Hb2].
  destruct (onDocumentSave_reachable d2 _ Hs1) as [Hf12 Hb12].
  split.
  - by rewrite Hf12, Hf1, Hf2, saved_file_same_uri.
  - apply bucket_ext; [by apply reachable_no_empty, reachable_save..|].
    intros i. by rewrite Hb12, Hb1, Hb2, saved_bucket_same_uri.
Qed.

Lemma later_save_overwrites_witness :
  reachable scanned_corpus ∧ uri b_emptied = uri b_edited ∧
  byId_view (onDocumentSave b_edited (onDocumentSave b_emptied scanned_corpus))
  = byId_view (onDocumentSave b_edited scanned_corpus).
Proof.
  split; [exact scanned_corpus_reachable|]. split; [reflexivity|].
  exact (proj2 (later_save_overwrites scanned_corpus b_emptied b_edited
                  scanned_corpus_reachable eq_refl)).
Defined.

(** X10. Saves of two different documents can be applied in either order:
    the by-file view is the same, and every bucket holds the same records,
    the fresh records of the two documents in the order of the saves. *)
Theorem saves_of_two_documents_commute (s : WorkspaceScanner) (d1 d2 : TextDocument) :
  reachable s → toString (uri d1) ≠ toString (uri d2) →
  byFile_view (onDocumentSave d2 (onDocumentSave d1 s))
  = byFile_view (onDocumentSave d1 (onDocumentSave d2 s)) ∧
  ∀ i, bucket (byId_view (onDocumentSave d2 (onDocumentSave d1 s))) i
       ≡ₚ bucket (byId_view (onDocumentSave d1 (onDocumentSave d2 s))) i.
Proof.
  intros Hs Hne.
  destruct (onDocumentSave_reachable d1 s Hs) as [Hf1 Hb1].
  destruct (onDocumentSave_reachable d2 s Hs) as [Hf2 Hb2].
  destruct (onDocumentSave_reachable d2 _ (reachable_save d1 s Hs)) as [Hf12 Hb12].
  destruct (onDocumentSave_reachable d1 _ (reachable_save d2 s Hs)) as [Hf21 Hb21].
  split.
  - by rewrite Hf12, Hf1, Hf21, Hf2, saved_file_comm.
  - intros i. rewrite Hb12, Hb1, Hb21, Hb2. by apply saved_bucket_comm.
Qed.

Lemma saves_of_two_documents_commute_witness :
  reachable scanned_corpus ∧ toString (uri a_edited) ≠ toString (uri b_edited) ∧
  byFile_view (onDocumentSave b_edited (onDocumentSave a_edited scanned_corpus))
  = byFile_view (onDocumentSave a_edited (onDocumentSave b_edited scanned_corpus)).
Proof.
  assert (H : toString (uri a_edited) ≠ toString (uri b_edited)) by discriminate.
  split; [exact scanned_corpus_reachable|]. split; [exact H|].
  exact (proj1 (saves_of_two_documents_commute scanned_corpus a_edited b_edited
                  scanned_corpus_reachable H)).
Defined.

(** ** What the scan builds *)

(** The records the bucket of [i] gets from the documents, in the order in
    which their promises settled. *)
Definition scan_bucket (documents : list TextDocument) (i : string)
  : list WalkerByIdResult :=
  documents ≫= λ d, tag (uri d) <$> filter (λ O, id O = i) (getI18nResultsForFile d).

(** The entry of a scanned document in the by-file view. *)
Definition scan_entry (d : TextDocument) : option (list WalkerResult) :=
  match getI18nResultsForFile d with
  | [] => None
  | results => Some results
  end.

Lemma consistent_no_records bf bm key i :
  consistent bf bm → bf !! key = None →
  filter (λ c, ¬ tagged key c) (bucket bm i) = bucket bm i.
Proof.
  intros (_ & _ & Hcor) Hk. apply filter_none_tagged.
  specialize (Hcor key i). rewrite Hk in Hcor. simpl in Hcor.
  by apply fmap_nil_inv in Hcor.
Qed.

Lemma foldl_scan_document_views documents st :
  NoDup (keys documents) →
  (∀ d, d ∈ documents → st.1 !! toString (uri d) = None) →
  wf_st st.2 → consistent st.1 (view_of st.2) →
  (∀ d, d ∈ documents →
        (foldl scan_document st documents).1 !! toString (uri d) = scan_entry d) ∧
  (∀ k, k ∉ keys documents → (foldl scan_document st documents).1 !! k = st.1 !! k) ∧
  (∀ i, bucket (view_of (foldl scan_document st documents).2) i
        = bucket (view_of st.2) i ++ scan_bucket documents i).
Proof.
  revert st. induction documents as [|d documents IH]; intros st Hnd Hnew Hwf Hc.
  { split; [by intros d ?%elem_of_nil|]. split; [done|].
    intros i. simpl. by rewrite app_nil_r. }
  apply NoDup_cons in Hnd as [Hd Hnd].
  assert (Hk : st.1 !! toString (uri d) = None) by (apply Hnew; left).
  assert (Hstep : wf_st (scan_document st d).2 ∧
                  consistent (scan_document st d).1 (view_of (scan_document st d).2) ∧
                  (scan_document st d).1 !! toString (uri d) = scan_entry d ∧
                  (∀ k, k ≠ toString (uri d) →
                        (scan_document st d).1 !! k = st.1 !! k) ∧
                  (∀ i, bucket (view_of (scan_document st d).2) i
                        = bucket (view_of st.2) i
                          ++ (tag (uri d)
                                <$> filter (λ O, id O = i) (getI18nResultsForFile d)))).
  { rewrite scan_document_save by done. unfold scan_entry.
    case_bool_decide as Hlen.
    - destruct st as [bf [m h]]. cbn [fst snd] in *.
      destruct (save_maps_sim d bf m h Hwf) as (H1 & H2 & H3).
      rewrite H1, H3. split; [done|]. split; [by apply save_view_consistent|].
      split; [|split].
      + rewrite lookup_insert_eq.
        destruct (getI18nResultsForFile d); [simpl in Hlen; lia|done].
      + intros k Hne. by rewrite lookup_insert_ne.
      + intros i. rewrite (save_view_bucket _ _ _ _ i Hc).
        by rewrite (consistent_no_records _ _ _ i Hc Hk).
    - destruct (getI18nResultsForFile d); [|simpl in Hlen; lia].
      split; [done|]. split; [done|]. split; [done|]. split; [done|].
      intros i. simpl. by rewrite app_nil_r. }
  destruct Hstep as (Hwf' & Hc' & Hd' & Hother & Hb').
  destruct (IH (scan_document st d) Hnd) as (IH1 & IH2 & IH3); [|done..|].
  { intros d' Hd'in. rewrite Hother; [apply Hnew; by right|].
    intros Heq. apply Hd. rewrite <- Heq. apply list_elem_of_fmap. by exists d'. }
  simpl foldl. split; [|split].
  - intros d0 [->|Hin]%elem_of_cons; [|by apply IH1].
    by rewrite IH2.
  - intros k Hk'. unfold keys in Hk'. rewrite fmap_cons in Hk'.
    apply not_elem_of_cons in Hk' as [Hk1 Hk2]. by rewrite IH2, Hother.
  - intros i. rewrite IH3, Hb'. unfold scan_bucket. simpl. by rewrite <- app_assoc.
Qed.

Lemma initialize_views outcomes :
  scanned outcomes →
  (∀ d, d ∈ omap fulfilled outcomes →
        byFile_view (initialize outcomes new_scanner) !! toString (uri d)
        = scan_entry d) ∧
  (∀ k, k ∉ keys (omap fulfilled outcomes) →
        byFile_view (initialize outcomes new_scanner) !! k = None) ∧
  (∀ i, bucket (byId_view (initialize outcomes new_scanner)) i
        = scan_bucket (omap fulfilled outcomes) i).
Proof.
  intros [Hnd Hr]. rewrite (initialize_new _ Hr).
  destruct (foldl_scan_document_views (omap fulfilled outcomes) (∅, (∅, [])) Hnd)
    as (H1 & H2 & H3).
  - intros d _. apply lookup_empty.
  - split; simpl; [intros k l; by rewrite lookup_empty|].
    intros k1 k2 l. by rewrite lookup_empty.
  - apply consistent_empty.
  - split; [exact H1|]. split.
    + intros k Hk. change (byFile_view _) with
        (foldl scan_document (∅, (∅, [])) (omap fulfilled outcomes)).1.
      rewrite (H2 k Hk). apply lookup_empty.
    + intros i. change (byId_view _) with
        (view_of (foldl scan_document (∅, (∅, [])) (omap fulfilled outcomes)).2).
      rewrite H3. unfold bucket at 1, view_of, view. simpl.
      by rewrite omap_empty, lookup_empty.
Qed.

(** X11. After a scan in which every document opened, the scanner is
    initialised and has given one map to each subject, the by-file map
    first; the by-file view holds exactly the documents with at least one
    occurrence, each with its occurrences, and the bucket of an identifier
    holds the records of the documents in the order in which their promises
    settled. *)
Theorem scan_builds_views (outcomes : list ScanOutcome) :
  scanned outcomes →
  _state (initialize outcomes new_scanner) = initialized ∧
  (∀ d, d ∈ omap fulfilled outcomes →
        byFile_view (initialize outcomes new_scanner) !! toString (uri d)
        = scan_entry d) ∧
  (∀ k, k ∉ keys (omap fulfilled outcomes) →
        byFile_view (initialize outcomes new_scanner) !! k = None) ∧
  (∀ i, bucket (byId_view (initialize outcomes new_scanner)) i
        = scan_bucket (omap fulfilled outcomes) i) ∧
  ∃ bf bi, _resultsByFile (initialize outcomes new_scanner) = Some bf ∧
           _resultsById (initialize outcomes new_scanner) = Some bi ∧
           emitted (initialize outcomes new_scanner) = [ByFile bf; ById bi].
Proof.
  intros Hs. destruct (initialize_views outcomes Hs) as (H1 & H2 & H3).
  split; [by apply reachable_initialized, reachable_scan|].
  split; [exact H1|]. split; [exact H2|]. split; [exact H3|].
  destruct Hs as [_ Hr]. rewrite (initialize_new _ Hr). by eexists _, _.
Qed.

Lemma scan_builds_views_witness :
  scanned corpus ∧
  bucket (byId_view (initialize corpus new_scanner)) "welcome"
  = scan_bucket (omap fulfilled corpus) "welcome".
Proof.
  split; [exact corpus_scanned|].
  exact (proj1 (proj2 (proj2 (proj2 (scan_builds_views corpus corpus_scanned)))) "welcome").
Defined.

Lemma scanned_Permutation o1 o2 : o1 ≡ₚ o2 → scanned o1 → scanned o2.
Proof.
  intros Hp [Hnd Hr]. split.
  - unfold keys in *. by rewrite <- Hp.
  - symmetry. apply Permutation_nil_l. rewrite <- Hr. by rewrite Hp.
Qed.

(** X12. The order in which the promises of the scan settle does not
    matter for the by-file view, and matters for the by-identifier view and
    the validated view only in the order of the records within a bucket. *)
Theorem scan_order_irrelevant (o1 o2 : list ScanOutcome) :
  scanned o1 → o1 ≡ₚ o2 →
  byFile_view (initialize o1 new_scanner) = byFile_view (initialize o2 new_scanner) ∧
  ∀ i, bucket (byId_view (initialize o1 new_scanner)) i
       ≡ₚ bucket (byId_view (initialize o2 new_scanner)) i ∧
       validate_bucket (bucket (byId_view (initialize o1 new_scanner)) i)
       ≡ₚ validate_bucket (bucket (byId_view (initialize o2 new_scanner)) i).
Proof.
  intros Hs1 Hp. pose proof (scanned_Permutation _ _ Hp Hs1) as Hs2.
  destruct (initialize_views o1 Hs1) as (F1 & N1 & B1).
  destruct (initialize_views o2 Hs2) as (F2 & N2 & B2).
  assert (Hd : omap fulfilled o1 ≡ₚ omap fulfilled o2) by by rewrite Hp.
  split.
  - apply map_eq. intros k.
    destruct (decide (k ∈ keys (omap fulfilled o1))) as [Hk|Hk].
    + apply list_elem_of_fmap in Hk as (d & -> & Hin).
      rewrite (F1 d Hin). symmetry. apply F2. by rewrite <- Hd.
    + rewrite (N1 k Hk). symmetry. apply N2. unfold keys in *. by rewrite <- Hd.
  - intros i.
    assert (Hb : bucket (byId_view (initialize o1 new_scanner)) i
                 ≡ₚ bucket (byId_view (initialize o2 new_scanner)) i).
    { rewrite B1, B2. unfold scan_bucket. by rewrite Hd. }
    split; [done|]. by apply validate_bucket_Permutation.
Qed.

Lemma scan_order_irrelevant_witness :
  scanned corpus ∧ corpus ≡ₚ reverse corpus ∧
  byFile_view (initialize corpus new_scanner)
  = byFile_view (initialize (reverse corpus) new_scanner).
Proof.
  assert (H : corpus ≡ₚ reverse corpus) by (symmetry; apply reverse_Permutation).
  split; [exact corpus_scanned|]. split; [exact H|].
  exact (proj1 (scan_order_irrelevant corpus (reverse corpus) corpus_scanned H)).
Defined.

(** ** The engine over any sequence of events *)

(** The documents saved in a sequence of events, in the order of arrival. *)
Definition saves (evs : list Event) : list TextDocument :=
  omap (λ ev, match ev with Saved d => Some d | _ => None end) evs.

Definition save_of (ev : Event) : list TextDocument :=
  match ev with Saved d => [d] | _ => [] end.

(** All saves that arrived, forwarded or waiting. *)
Definition held (e : Engine) : list TextDocument :=
  delivered e ++ (saved <$> intervals e).

Lemma scan_settled_state_cases outcomes s :
  _state (scan_settled outcomes s) = initialized ∨
  _state (scan_settled outcomes s) = _state s.
Proof.
  unfold scan_settled. destruct (foldl scan_document _ _) as [bf [m h]].
  destruct (omap rejected outcomes); [by left|by right].
Qed.

Lemma step_held e ev : held (step e ev) ≡ₚ held e ++ save_of ev.
Proof.
  unfold held. destruct ev as [d| |outcomes]; simpl.
  - unfold onDidSaveTextDocument.
    destruct (_state (scanner e)); simpl; rewrite ?fmap_app; simpl;
      rewrite <- ?app_assoc; try done.
    apply Permutation_app_head, Permutation_app_comm.
  - rewrite app_nil_r. destruct (_state (scanner e)) eqn:Hst.
    + rewrite tick_waiting by (by rewrite Hst). simpl. by rewrite saved_rearm.
    + rewrite tick_waiting by (by rewrite Hst). simpl. by rewrite saved_rearm.
    + rewrite tick_ready by done. simpl. rewrite <- app_assoc, <- fmap_app.
      apply Permutation_app_head, fmap_Permutation.
      apply (filter_app_complement (λ iv, due iv = S (now e))).
  - by rewrite app_nil_r.
Qed.

Definition due_soon (e : Engine) : Prop :=
  Forall (λ iv, now e < due iv ≤ now e + period) (intervals e).

Lemma step_due_soon e ev : due_soon e → due_soon (step e ev).
Proof.
  unfold due_soon. intros Hd. destruct ev as [d| |outcomes]; simpl; [| |done].
  - unfold onDidSaveTextDocument.
    destruct (_state (scanner e)); simpl; try done;
      (apply Forall_app; split; [done|]; apply Forall_singleton; simpl;
       unfold period; lia).
  - destruct (_state (scanner e)) eqn:Hst.
    1,2: rewrite tick_waiting by (by rewrite Hst); simpl;
      apply Forall_fmap; (eapply Forall_impl; [exact Hd|]);
      intros iv Hiv; unfold rearm; simpl;
      case_bool_decide; simpl; unfold period in *; lia.
    rewrite tick_ready by done. simpl. apply Forall_forall.
    intros iv [Hne Hin]%list_elem_of_filter.
    rewrite Forall_forall in Hd. specialize (Hd iv Hin). lia.
Qed.

(** Nothing is forwarded before the scanner is initialised. *)
Definition quiet (e : Engine) : Prop :=
  _state (scanner e) ≠ initialized → delivered e = [].

Lemma step_quiet e ev : quiet e → quiet (step e ev).
Proof.
  unfold quiet. intros Hq. destruct ev as [d| |outcomes]; simpl.
  - unfold onDidSaveTextDocument. destruct (_state (scanner e)) eqn:Hst; simpl.
    + intros _. by apply Hq.
    + intros _. by apply Hq.
    + by rewrite onDocumentSave_state, Hst.
  - destruct (_state (scanner e)) eqn:Hst.
    + rewrite tick_waiting by (by rewrite Hst). simpl. intros _. by apply Hq.
    + rewrite tick_waiting by (by rewrite Hst). simpl. intros _. by apply Hq.
    + rewrite tick_ready by done. simpl. by rewrite save_all_state, Hst.
  - intros Hst. apply Hq. intros Hi. apply Hst.
    destruct (scan_settled_state_cases outcomes (scanner e)) as [?|He]; [done|].
    by rewrite He.
Qed.

Lemma run_snoc e evs ev : run e (evs ++ [ev]) = step (run e evs) ev.
Proof. unfold run. by rewrite foldl_app. Qed.

Lemma run_app e evs1 evs2 : run e (evs1 ++ evs2) = run (run e evs1) evs2.
Proof. unfold run. apply foldl_app. Qed.

Lemma saves_snoc evs ev : saves (evs ++ [ev]) = saves evs ++ save_of ev.
Proof. unfold saves. rewrite omap_app. by destruct ev. Qed.

(** X13. Whatever the sequence of saves, ticks and settled scans: every
    save that arrived has been forwarded exactly once or waits with exactly
    one interval, every waiting interval is due within the next 1000 ms, and
    nothing has been forwarded as long as the scanner is not initialised. *)
Theorem engine_holds_every_save (evs : list Event) :
  held (run activated evs) ≡ₚ saves evs ∧
  due_soon (run activated evs) ∧
  quiet (run activated evs).
Proof.
  induction evs as [|ev evs (IH1 & IH2 & IH3)] using rev_ind.
  - split; [done|]. split; [constructor|]. by intros _.
  - rewrite run_snoc, saves_snoc. split; [|split].
    + by rewrite step_held, IH1.
    + by apply step_due_soon.
    + by apply step_quiet.
Qed.

Lemma scan_settled_failed outcomes s err :
  head (omap rejected outcomes) = Some err →
  _state (scan_settled outcomes s) = _state s ∧
  _resultsByFile (scan_settled outcomes s) = _resultsByFile s ∧
  _resultsById (scan_settled outcomes s) = _resultsById s ∧
  emitted (scan_settled outcomes s) = emitted s.
Proof.
  intros Herr. unfold scan_settled. destruct (foldl scan_document _ _) as [bf [m h]].
  by destruct (omap rejected outcomes).
Qed.

Lemma run_waiting e0 pre :
  _state (scanner e0) = initializing →
  scanner (run e0 (early <$> pre)) = scanner e0 ∧
  delivered (run e0 (early <$> pre)) = delivered e0 ∧
  saved <$> intervals (run e0 (early <$> pre))
  = (saved <$> intervals e0) ++ arrivals pre.
Proof.
  intros Hst. induction pre as [|x pre (Hsc & Hd & Hsv)] using rev_ind.
  { simpl. by rewrite app_nil_r. }
  rewrite fmap_app. simpl. rewrite run_snoc.
  set (e := run e0 (early <$> pre)) in *.
  assert (Hst' : _state (scanner e) = initializing) by by rewrite Hsc.
  unfold arrivals in *. rewrite omap_app.
  destruct x as [document|]; simpl.
  - unfold onDidSaveTextDocument. rewrite Hst'. simpl.
    split; [done|]. split; [done|]. by rewrite fmap_app, Hsv, <- app_assoc.
  - rewrite tick_waiting by (by rewrite Hst'). simpl.
    split; [done|]. split; [done|]. by rewrite saved_rearm, Hsv, app_nil_r.
Qed.

(** X14. When the scan fails, the saves that arrived before and after it
    are never forwarded: each keeps its interval, nothing is given to the
    subjects and the scanner stays [initializing] with no map. *)
Theorem failed_scan_blocks_saves (pre post : list (option TextDocument))
    (outcomes : list ScanOutcome) (err : string) :
  head (omap rejected outcomes) = Some err →
  let e := run activated ((early <$> pre) ++ Settled outcomes :: (early <$> post)) in
  delivered e = [] ∧
  saved <$> intervals e = arrivals pre ++ arrivals post ∧
  _state (scanner e) = initializing ∧
  _resultsByFile (scanner e) = None ∧
  _resultsById (scanner e) = None ∧
  emitted (scanner e) = [].
Proof.
  intros Herr. cbv zeta. rewrite run_app, run_cons.
  destruct (run_waiting activated pre eq_refl) as (Hsc & Hd & Hsv).
  set (e0 := run activated (early <$> pre)) in *.
  destruct (scan_settled_failed outcomes (scanner e0) err Herr) as (S1 & S2 & S3 & S4).
  destruct (run_waiting (step e0 (Settled outcomes)) post) as (Hsc' & Hd' & Hsv').
  { simpl. by rewrite S1, Hsc. }
  rewrite Hsc', Hd', Hsv'. simpl. rewrite S1, S2, S3, S4, Hsc, Hd, Hsv. done.
Qed.

Lemma failed_scan_blocks_saves_witness :
  head (omap rejected failing_scan) = Some "cannot open" ∧
  delivered (run activated ((early <$> [Some a_edited; None])
                            ++ Settled failing_scan :: (early <$> [None; Some b_edited])))
  = [].
Proof.
  split; [reflexivity|].
  exact (proj1 (failed_scan_blocks_saves [Some a_edited; None] [None; Some b_edited]
                  failing_scan "cannot open" eq_refl)).
Defined.

(** X15. Once the scanner is initialised and no interval is waiting, every
    save is forwarded at once: the saves are applied in the order of
    arrival, and no interval is ever set. *)
Theorem ready_engine_forwards_at_once (e : Engine) (evs : list (option TextDocument)) :
  _state (scanner e) = initialized → intervals e = [] →
  delivered (run e (early <$> evs)) = delivered e ++ arrivals evs ∧
  intervals (run e (early <$> evs)) = [] ∧
  scanner (run e (early <$> evs)) = save_all (scanner e) (arrivals evs).
Proof.
  intros Hst Hiv. induction evs as [|x evs (Hd & Hi & Hsc)] using rev_ind.
  { simpl. by rewrite app_nil_r. }
  rewrite fmap_app. simpl. rewrite run_snoc.
  set (e1 := run e (early <$> evs)) in *.
  assert (Hst1 : _state (scanner e1) = initialized) by by rewrite Hsc, save_all_state.
  unfold arrivals in *. rewrite omap_app.
  destruct x as [document|]; simpl.
  - unfold onDidSaveTextDocument. rewrite Hst1. simpl.
    rewrite Hd, Hi, Hsc, <- app_assoc. split; [done|]. split; [done|].
    unfold save_all. by rewrite foldl_app.
  - rewrite tick_ready by done. rewrite Hi. simpl.
    by rewrite Hd, Hsc, !app_nil_r.
Qed.

Lemma ready_engine_forwards_at_once_witness :
  _state (scanner (run activated [Settled corpus])) = initialized ∧
  intervals (run activated [Settled corpus]) = [] ∧
  delivered (run (run activated [Settled corpus])
               (early <$> [Some a_edited; None; Some b_edited]))
  = [a_edited; b_edited].
Proof.
  assert (H1 : _state (scanner (run activated [Settled corpus])) = initialized)
    by reflexivity.
  assert (H2 : intervals (run activated [Settled corpus]) = []) by reflexivity.
  split; [exact H1|]. split; [exact H2|].
  exact (proj1 (ready_engine_forwards_at_once _ [Some a_edited; None; Some b_edited]
                  H1 H2)).
Defined.

(** ** Calling [initialize] again *)

Lemma initialize_started outcomes s : _state (initialize outcomes s) ≠ uninitialized.
Proof.
  unfold initialize, initialize_call. destruct (_state s) eqn:Hst; try by rewrite Hst.
  unfold scan_settled. destruct (foldl scan_document _ _) as [bf [m h]].
  by destruct (omap rejected outcomes).
Qed.

Lemma initialize_not_uninitialized outcomes s :
  _state s ≠ uninitialized → initialize outcomes s = s.
Proof. unfold initialize, initialize_call. by destruct (_state s). Qed.

(** X16. [initialize] starts a scan only on a scanner that is
    [uninitialized], and leaves a state other than [uninitialized] behind:
    any later call, whatever has happened to the first scan, returns the
    scanner as it is, so at most one scan is ever started. *)
Theorem initialize_only_once (s : WorkspaceScanner) (o1 o2 : list ScanOutcome) :
  _state (initialize o1 s) ≠ uninitialized ∧
  initialize o2 (initialize o1 s) = initialize o1 s ∧
  (_state s ≠ uninitialized → initialize o1 s = s).
Proof.
  split; [apply initialize_started|].
  split; [apply initialize_not_uninitialized, initialize_started|].
  apply initialize_not_uninitialized.
Qed.

Lemma initialize_only_once_witness :
  _state scanned_corpus ≠ uninitialized ∧
  initialize failing_scan scanned_corpus = scanned_corpus.
Proof.
  assert (H : _state scanned_corpus ≠ uninitialized) by discriminate.
  split; [exact H|].
  exact (proj2 (proj2 (initialize_only_once scanned_corpus failing_scan [])) H).
Defined.
